(** * AVL tree of the Code-Cookbook repository

    Shallow embedding of [Data-Structures/Python/tree/avl_tree.py]
    (classes [Node] and [AVLTree]) and the properties stated about it.

    Python integers are unbounded, so node data and cached heights are [Z].
    A [Node] object is a constructor carrying its four fields; the absent
    child [None] is [Nil].  The methods mutate nodes in place; since every
    node has exactly one owner, an in-place update is rendered as the
    rebuilt subtree, and an exception that escapes a method is rendered
    together with the object graph it leaves behind. *)

From Stdlib Require Import ZArith List Lia Bool Permutation Sorted Reals Lra.
Import ListNotations.
Open Scope Z_scope.

(* ================================================================= *)
(** ** Data model *)

(** [class Node]: [data], [left], [right], [height]. *)
Inductive tree : Type :=
| Nil : tree
| Node (data : Z) (left right : tree) (height : Z) : tree.

(** [class AVLTree]: the single attribute [root]. *)
Record AVLTree : Type := { root : tree }.

(** The exceptions the module can raise: [AttributeError] when an attribute
    of [None] is read, [ValueError] from [get_min] and [get_max]. *)
Inductive exn : Type := AttributeError | ValueError.

(** Result of a method call: a returned value or a raised exception. *)
Inductive result (A : Type) : Type :=
| Ok (a : A)
| Exc (e : exn).
Arguments Ok {A} a.
Arguments Exc {A} e.

(** Result of a recursive helper working on a subtree.  [Returned t] is the
    subtree root handed back to the caller; [Raised t] says that an
    [AttributeError] propagated and that the subtree object, mutated in
    place up to that point, now is [t]. *)
Inductive outcome : Type :=
| Returned (t : tree)
| Raised (t : tree).

(** The subtree object an outcome leaves, returned or not. *)
Definition tree_of (o : outcome) : tree :=
  match o with Returned t => t | Raised t => t end.

(* ================================================================= *)
(** ** Height helpers and rotations *)

Definition is_empty (self : AVLTree) : bool :=
  match root self with Nil => true | Node _ _ _ _ => false end.

Definition get_height (node : tree) : Z :=
  match node with Nil => 0 | Node _ _ _ h => h end.

Definition get_balance (node : tree) : Z :=
  match node with
  | Nil => 0
  | Node _ l r _ => get_height l - get_height r
  end.

(** [node.data]; reading it on [None] raises. *)
Definition data_of (node : tree) : option Z :=
  match node with Nil => None | Node d _ _ _ => Some d end.

(** A node whose height field has just been recomputed:
    [node.height = max(get_height(node.left), get_height(node.right)) + 1]. *)
Definition refresh (d : Z) (l r : tree) : tree :=
  Node d l r (Z.max (get_height l) (get_height r) + 1).

(** [right_rotate(y)].  [T2 = x.right] raises when [y.left] is [None], before
    anything is assigned; [None] stands for that. *)
Definition right_rotate (y : tree) : option tree :=
  match y with
  | Node yd (Node xd xl T2 _) yr _ => Some (refresh xd xl (refresh yd T2 yr))
  | _ => None
  end.

(** [left_rotate(x)], the mirror image. *)
Definition left_rotate (x : tree) : option tree :=
  match x with
  | Node xd xl (Node yd T2 yr _) _ => Some (refresh yd (refresh xd xl T2) yr)
  | _ => None
  end.

(** A rotation either returns the new subtree root or raises, leaving the
    node [st] as it was. *)
Definition finish (st : tree) (o : option tree) : outcome :=
  match o with Some t => Returned t | None => Raised st end.

(* ================================================================= *)
(** ** insert *)

(** A test [guard and test(child.data)] with Python's short circuit:
    [child.data] is read only when [guard] holds. *)
Definition cond (guard : bool) (child : tree) (test : Z -> bool) : option bool :=
  if guard then option_map test (data_of child) else Some false.

(** Lines 129-151 of [insert_recursive]: the node has data [nd] and, after
    the recursive call, children [l] and [r]. *)
Definition insert_rebalance (nd : Z) (l r : tree) (data : Z) : outcome :=
  let node := refresh nd l r in
  let balance := get_balance node in
  match cond (balance >? 1) l (fun d => data <? d) with
  | None => Raised node
  | Some true => finish node (right_rotate node)
  | Some false =>
  match cond (balance <? -1) r (fun d => data >? d) with
  | None => Raised node
  | Some true => finish node (left_rotate node)
  | Some false =>
  match cond (balance >? 1) l (fun d => data >? d) with
  | None => Raised node
  | Some true =>
      match left_rotate l with
      | None => Raised node
      | Some l2 =>
          let node2 := Node nd l2 r (get_height node) in
          finish node2 (right_rotate node2)
      end
  | Some false =>
  match cond (balance <? -1) r (fun d => data <? d) with
  | None => Raised node
  | Some true =>
      match right_rotate r with
      | None => Raised node
      | Some r2 =>
          let node2 := Node nd l r2 (get_height node) in
          finish node2 (left_rotate node2)
      end
  | Some false => Returned node
  end end end end.

Fixpoint insert_recursive (node : tree) (data : Z) : outcome :=
  match node with
  | Nil => Returned (Node data Nil Nil 1)
  | Node nd l r h =>
      if data <? nd then
        match insert_recursive l data with
        | Raised l' => Raised (Node nd l' r h)
        | Returned l' => insert_rebalance nd l' r data
        end
      else
        match insert_recursive r data with
        | Raised r' => Raised (Node nd l r' h)
        | Returned r' => insert_rebalance nd l r' data
        end
  end.

(** [AVLTree.insert]: [self.root] is reassigned only when the helper
    returns; when it raises, [self.root] still names the same, mutated,
    object. *)
Definition insert (self : AVLTree) (data : Z) : AVLTree * result unit :=
  match insert_recursive (root self) data with
  | Returned t => ({| root := t |}, Ok tt)
  | Raised t => ({| root := t |}, Exc AttributeError)
  end.

(* ================================================================= *)
(** ** delete *)

(** The loop [while temp.left: temp = temp.left] started on a node with
    data [d] and left child [l]; the data of the node it stops at. *)
Fixpoint leftmost (d : Z) (l : tree) : Z :=
  match l with
  | Nil => d
  | Node d' l' _ _ => leftmost d' l'
  end.

Fixpoint rightmost (d : Z) (r : tree) : Z :=
  match r with
  | Nil => d
  | Node d' _ r' _ => rightmost d' r'
  end.

(** Lines 190-212 of [delete_recursive]. *)
Definition delete_rebalance (nd : Z) (l r : tree) : outcome :=
  let node := refresh nd l r in
  let balance := get_balance node in
  if (balance >? 1) && (get_balance l >=? 0) then
    finish node (right_rotate node)
  else if (balance >? 1) && (get_balance l <? 0) then
    match left_rotate l with
    | None => Raised node
    | Some l2 =>
        let node2 := Node nd l2 r (get_height node) in
        finish node2 (right_rotate node2)
    end
  else if (balance <? -1) && (get_balance r <=? 0) then
    finish node (left_rotate node)
  else if (balance <? -1) && (get_balance r >? 0) then
    match right_rotate r with
    | None => Raised node
    | Some r2 =>
        let node2 := Node nd l r2 (get_height node) in
        finish node2 (left_rotate node2)
    end
  else Returned node.

Fixpoint delete_recursive (node : tree) (data : Z) : outcome :=
  match node with
  | Nil => Returned Nil
  | Node nd l r h =>
      if data <? nd then
        match delete_recursive l data with
        | Raised l' => Raised (Node nd l' r h)
        | Returned l' => delete_rebalance nd l' r
        end
      else if data >? nd then
        match delete_recursive r data with
        | Raised r' => Raised (Node nd l r' h)
        | Returned r' => delete_rebalance nd l r'
        end
      else
        match l with
        | Nil => Returned r
        | Node _ _ _ _ =>
            match r with
            | Nil => Returned l
            | Node rd rl _ _ =>
                let temp_data := leftmost rd rl in
                match delete_recursive r temp_data with
                | Raised r' => Raised (Node temp_data l r' h)
                | Returned r' => delete_rebalance temp_data l r'
                end
            end
        end
  end.

(** [AVLTree.delete]. *)
Definition delete (self : AVLTree) (data : Z) : AVLTree * result bool :=
  if is_empty self then (self, Ok false)
  else
    match delete_recursive (root self) data with
    | Returned t => ({| root := t |}, Ok true)
    | Raised t => ({| root := t |}, Exc AttributeError)
    end.

(* ================================================================= *)
(** ** search, traversals, minimum and maximum *)

Fixpoint search_recursive (node : tree) (data : Z) : bool :=
  match node with
  | Nil => false
  | Node nd l r _ =>
      if data =? nd then true
      else if data <? nd then search_recursive l data
      else search_recursive r data
  end.

Definition search (self : AVLTree) (data : Z) : bool :=
  search_recursive (root self) data.

(** The nested helpers append to the list [result] of the enclosing call;
    the list is threaded through. *)
Fixpoint inorder (node : tree) (result : list Z) : list Z :=
  match node with
  | Nil => result
  | Node d l r _ => inorder r (inorder l result ++ [d])
  end.

Fixpoint preorder (node : tree) (result : list Z) : list Z :=
  match node with
  | Nil => result
  | Node d l r _ => preorder r (preorder l (result ++ [d]))
  end.

Fixpoint postorder (node : tree) (result : list Z) : list Z :=
  match node with
  | Nil => result
  | Node d l r _ => postorder r (postorder l result) ++ [d]
  end.

Definition inorder_traversal (self : AVLTree) : list Z := inorder (root self) [].
Definition preorder_traversal (self : AVLTree) : list Z := preorder (root self) [].
Definition postorder_traversal (self : AVLTree) : list Z := postorder (root self) [].

Definition get_min (self : AVLTree) : result Z :=
  match root self with
  | Nil => Exc ValueError
  | Node d l _ _ => Ok (leftmost d l)
  end.

Definition get_max (self : AVLTree) : result Z :=
  match root self with
  | Nil => Exc ValueError
  | Node d _ r _ => Ok (rightmost d r)
  end.

Definition clear (self : AVLTree) : AVLTree := {| root := Nil |}.

(** [AVLTree()]. *)
Definition empty : AVLTree := {| root := Nil |}.

(* ================================================================= *)
(** ** Sequences of operations *)

Inductive op : Type := Insert (v : Z) | Delete (v : Z).

(** One call on the tree object; a caller that catches an exception goes on
    with the object as the call left it. *)
Definition apply_op (self : AVLTree) (o : op) : AVLTree :=
  match o with
  | Insert v => fst (insert self v)
  | Delete v => fst (delete self v)
  end.

Definition raises (self : AVLTree) (o : op) : bool :=
  match o with
  | Insert v => match snd (insert self v) with Ok _ => false | Exc _ => true end
  | Delete v => match snd (delete self v) with Ok _ => false | Exc _ => true end
  end.

(** The object after a sequence of calls. *)
Definition exec (self : AVLTree) (ops : list op) : AVLTree :=
  fold_left apply_op ops self.

(** The sequence run by a caller that catches nothing: [None] as soon as a
    call raises. *)
Fixpoint run (self : AVLTree) (ops : list op) : option AVLTree :=
  match ops with
  | [] => Some self
  | o :: ops' => if raises self o then None else run (apply_op self o) ops'
  end.

Definition insert_all (vs : list Z) : list op := map Insert vs.

(* ================================================================= *)
(** ** Specification vocabulary *)

(** The values of a subtree from left to right. *)
Fixpoint elements (t : tree) : list Z :=
  match t with
  | Nil => []
  | Node d l r _ => elements l ++ d :: elements r
  end.

Fixpoint prefix_elements (t : tree) : list Z :=
  match t with
  | Nil => []
  | Node d l r _ => d :: prefix_elements l ++ prefix_elements r
  end.

Fixpoint postfix_elements (t : tree) : list Z :=
  match t with
  | Nil => []
  | Node d l r _ => postfix_elements l ++ postfix_elements r ++ [d]
  end.

Fixpoint size (t : tree) : Z :=
  match t with
  | Nil => 0
  | Node _ l r _ => size l + size r + 1
  end.

(** Number of nodes on the longest path from the root downwards. *)
Fixpoint real_height (t : tree) : Z :=
  match t with
  | Nil => 0
  | Node _ l r _ => Z.max (real_height l) (real_height r) + 1
  end.

(** Every cached height is at least one. *)
Fixpoint heights_positive (t : tree) : Prop :=
  match t with
  | Nil => True
  | Node _ l r h => heights_positive l /\ heights_positive r /\ 1 <= h
  end.

(** Height correctness and the balance invariant at every node. *)
Fixpoint avl (t : tree) : Prop :=
  match t with
  | Nil => True
  | Node _ l r h =>
      avl l /\ avl r /\
      h = Z.max (get_height l) (get_height r) + 1 /\
      -1 <= get_height l - get_height r <= 1
  end.

(** The balance invariant alone, as a test. *)
Fixpoint balanced (t : tree) : bool :=
  match t with
  | Nil => true
  | Node _ l r _ =>
      balanced l && balanced r &&
      (-1 <=? get_height l - get_height r) && (get_height l - get_height r <=? 1)
  end.

(** Ordering of the data model: left descendants are smaller, right
    descendants are greater or equal. *)
Fixpoint bst (t : tree) : Prop :=
  match t with
  | Nil => True
  | Node d l r _ =>
      bst l /\ bst r /\
      (forall x, In x (elements l) -> x < d) /\
      (forall x, In x (elements r) -> d <= x)
  end.

(** The same with equal values allowed on the left as well. *)
Fixpoint ordered (t : tree) : Prop :=
  match t with
  | Nil => True
  | Node d l r _ =>
      ordered l /\ ordered r /\
      (forall x, In x (elements l) -> x <= d) /\
      (forall x, In x (elements r) -> d <= x)
  end.

(** State invariant that survives every call, raising or not. *)
Definition well_formed (t : tree) : Prop := ordered t /\ heights_positive t.

(** [t] holds the values of a node with data [nd] and children [l], [r], in
    the same order, and its cached heights are positive. *)
Definition keeps (nd : Z) (l r t : tree) : Prop :=
  elements t = elements l ++ nd :: elements r /\ heights_positive t.

(** How an insertion changes the height of a subtree [t] into [t']: it stays,
    or it grows by one, and then either [t] was empty or the taller side of
    [t'] is the side the new value went to. *)
Definition grows (t t' : tree) (data : Z) : Prop :=
  get_height t' = get_height t \/
  (get_height t' = get_height t + 1 /\
   (t = Nil \/
    match t' with
    | Nil => False
    | Node d' l' r' _ =>
        (data < d' /\ get_height r' < get_height l') \/
        (d' < data /\ get_height l' < get_height r')
    end)).

(** A duplicate-free list, as a test. *)
Fixpoint distinct (l : list Z) : bool :=
  match l with
  | [] => true
  | x :: l' => negb (existsb (Z.eqb x) l') && distinct l'
  end.

(** Every cached height is one more than the larger cached height of the
    children. *)
Fixpoint height_correct (t : tree) : Prop :=
  match t with
  | Nil => True
  | Node _ l r h =>
      height_correct l /\ height_correct r /\
      h = Z.max (get_height l) (get_height r) + 1
  end.

(** Insertion into a non-decreasing list, after the equal values. *)
Fixpoint insert_sorted (x : Z) (l : list Z) : list Z :=
  match l with
  | [] => [x]
  | y :: l' => if x <? y then x :: y :: l' else y :: insert_sorted x l'
  end.

Definition sort (l : list Z) : list Z := fold_right insert_sorted [] l.

(** Removal of one occurrence. *)
Fixpoint remove_one (x : Z) (l : list Z) : list Z :=
  match l with
  | [] => []
  | y :: l' => if x =? y then l' else y :: remove_one x l'
  end.

(** The multiset a sequence of operations describes: each insertion adds
    an occurrence, each deletion takes one away when there is one. *)
Definition bag_step (b : list Z) (o : op) : list Z :=
  match o with
  | Insert v => v :: b
  | Delete v => remove_one v b
  end.

Definition bag (ops : list op) : list Z := fold_left bag_step ops [].

(** Sequences that never insert a value the tree already holds. *)
Fixpoint fresh_inserts (b : list Z) (ops : list op) : Prop :=
  match ops with
  | [] => True
  | Insert v :: ops' => ~ In v b /\ fresh_inserts (v :: b) ops'
  | Delete v :: ops' => fresh_inserts (remove_one v b) ops'
  end.

(** Fibonacci numbers, [fib 1 = fib 2 = 1]. *)
Fixpoint fib (n : nat) : Z :=
  match n with
  | O => 0
  | S m => match m with O => 1 | S k => fib m + fib k end
  end.

(** The bound [height <= 1.44 * log2(n + 2) - 0.328] over the reals. *)
Definition height_bound (h n : Z) : Prop :=
  (IZR h <= 144 / 100 * (ln (IZR (n + 2)) / ln 2) - 328 / 1000)%R.

(** The tree with the fewest nodes among the balanced trees of height [h],
    carrying the values [lo], [lo + 1], ... from left to right. *)
Fixpoint fib_tree (h : nat) (lo : Z) : tree :=
  match h with
  | O => Nil
  | S h1 =>
      match h1 with
      | O => Node lo Nil Nil 1
      | S h2 =>
          let l := fib_tree h1 lo in
          let d := lo + size l in
          Node d l (fib_tree h2 (d + 1)) (Z.of_nat h)
      end
  end.

(** The values at depth [k]. *)
Fixpoint level (t : tree) (k : nat) : list Z :=
  match t with
  | Nil => []
  | Node d l r _ =>
      match k with
      | O => [d]
      | S k' => level l k' ++ level r k'
      end
  end.

(** The values level by level, from the root downwards. *)
Definition level_order (t : tree) (h : nat) : list Z :=
  flat_map (level t) (seq 0 h).

(* ================================================================= *)
(** ** Traversals *)

Section Traversals.

Lemma inorder_elements (t : tree) :
  forall acc, inorder t acc = acc ++ elements t.
Proof.
  induction t as [|d l IHl r IHr h]; intros acc; simpl.
  - now rewrite app_nil_r.
  - rewrite IHr, IHl, <- !app_assoc. reflexivity.
Qed.

Lemma preorder_elements (t : tree) :
  forall acc, preorder t acc = acc ++ prefix_elements t.
Proof.
  induction t as [|d l IHl r IHr h]; intros acc; simpl.
  - now rewrite app_nil_r.
  - rewrite IHr, IHl, <- !app_assoc. reflexivity.
Qed.

Lemma postorder_elements (t : tree) :
  forall acc, postorder t acc = acc ++ postfix_elements t.
Proof.
  induction t as [|d l IHl r IHr h]; intros acc; simpl.
  - now rewrite app_nil_r.
  - rewrite IHr, IHl, <- !app_assoc. reflexivity.
Qed.

Lemma inorder_traversal_elements (self : AVLTree) :
  inorder_traversal self = elements (root self).
Proof. unfold inorder_traversal. now rewrite inorder_elements. Qed.

Lemma prefix_permutation (t : tree) :
  Permutation (elements t) (prefix_elements t).
Proof.
  induction t as [|d l IHl r IHr h]; simpl; [constructor|].
  symmetry. apply Permutation_cons_app. symmetry.
  now apply Permutation_app.
Qed.

Lemma postfix_permutation (t : tree) :
  Permutation (elements t) (postfix_elements t).
Proof.
  induction t as [|d l IHl r IHr h]; simpl; [constructor|].
  apply Permutation_app; [assumption|].
  change (d :: elements r) with ([d] ++ elements r).
  rewrite Permutation_app_comm. now apply Permutation_app.
Qed.

End Traversals.

(** C10. In every tree state the in-order, pre-order and post-order
    traversals are permutations of one another, and so have the same
    length. *)
Theorem traversals_same_multiset (self : AVLTree) :
  Permutation (inorder_traversal self) (preorder_traversal self) /\
  Permutation (inorder_traversal self) (postorder_traversal self) /\
  Permutation (preorder_traversal self) (postorder_traversal self) /\
  length (inorder_traversal self) = length (preorder_traversal self) /\
  length (inorder_traversal self) = length (postorder_traversal self).
Proof.
  unfold inorder_traversal, preorder_traversal, postorder_traversal.
  rewrite inorder_elements, preorder_elements, postorder_elements. simpl.
  pose proof (prefix_permutation (root self)) as Hpre.
  pose proof (postfix_permutation (root self)) as Hpost.
  repeat split.
  - exact Hpre.
  - exact Hpost.
  - now rewrite <- Hpre.
  - now apply Permutation_length.
  - now apply Permutation_length.
Qed.

(* ================================================================= *)
(** ** The scenarios of the module's example section *)

(** C8. Inserting 10, 20, 30, 40, 50, 25 into an empty tree raises nothing,
    the in-order traversal is then [10, 20, 25, 30, 40, 50] and the root
    holds 30. *)
Theorem scenario_basic :
  exists t,
    run empty (insert_all [10; 20; 30; 40; 50; 25]) = Some t /\
    inorder_traversal t = [10; 20; 25; 30; 40; 50] /\
    data_of (root t) = Some 30.
Proof. eexists. repeat split; reflexivity. Qed.

(** C1, at a failing input. After [insert(10)] the value 5 is absent, yet
    [delete(5)] returns [True]. *)
Theorem delete_absent_reports_success :
  let self := exec empty [Insert 10] in
  ~ In 5 (inorder_traversal self) /\
  is_empty self = false /\
  delete self 5 = (self, Ok true).
Proof.
  simpl. repeat split; try reflexivity.
  intros [H|[]]. discriminate H.
Qed.

(** C6, at a failing input. On the tree of the basic scenario the absent
    value 35 is searched without success, [delete(35)] leaves the traversal
    as it was, and still returns [True]. *)
Theorem delete_absent_keeps_tree_reports_success :
  let self := exec empty (insert_all [10; 20; 30; 40; 50; 25]) in
  search self 35 = false /\
  inorder_traversal (fst (delete self 35)) = inorder_traversal self /\
  snd (delete self 35) = Ok true.
Proof. repeat split; reflexivity. Qed.

(** C2, at a failing input. Three insertions of the value 1 raise nothing
    and leave a right spine: the root has an empty left subtree and a right
    subtree of height 2. *)
Theorem duplicates_break_balance :
  exists t,
    run empty (insert_all [1; 1; 1]) = Some t /\
    root t = Node 1 Nil (Node 1 Nil (Node 1 Nil Nil 1) 2) 3 /\
    get_balance (root t) = -2 /\
    balanced (root t) = false /\
    inorder_traversal t = [1; 1; 1].
Proof. eexists. repeat split; reflexivity. Qed.

(** C3, at a failing input. After four insertions of the value 1, the call
    [insert(0)] raises [AttributeError]: the right-left case calls
    [right_rotate] on a node without left child. *)
Theorem insert_raises_after_duplicates :
  let self := exec empty (insert_all [1; 1; 1; 1]) in
  run empty (insert_all [1; 1; 1; 1]) = Some self /\
  snd (insert self 0) = Exc AttributeError /\
  run empty (insert_all [1; 1; 1; 1; 0]) = None.
Proof. repeat split; reflexivity. Qed.

(* ================================================================= *)
(** ** Non-decreasing lists *)

Section SortedLists.

Local Abbreviation sorted := (StronglySorted Z.le).

Lemma sorted_app_cons (l1 l2 : list Z) (d : Z) :
  sorted (l1 ++ d :: l2) <->
  sorted l1 /\ sorted l2 /\
  (forall x, In x l1 -> x <= d) /\ (forall x, In x l2 -> d <= x).
Proof.
  induction l1 as [|a l1 IH]; simpl.
  - split.
    + intros H. inversion H as [|? ? Hs Hall]; subst.
      rewrite Forall_forall in Hall.
      repeat split; auto; [constructor | intros x []].
    + intros (_ & Hs & _ & Hge). constructor; [assumption|].
      now apply Forall_forall.
  - split.
    + intros H. inversion H as [|? ? Hs Hall]; subst.
      apply IH in Hs. destruct Hs as (Hs1 & Hs2 & Hle & Hge).
      rewrite Forall_forall in Hall.
      repeat split; auto.
      * constructor; [assumption|]. apply Forall_forall.
        intros x Hx. apply Hall, in_or_app. now left.
      * intros x [<-|Hx]; [|now apply Hle].
        apply Hall, in_or_app. right. now left.
    + intros (Hs1 & Hs2 & Hle & Hge).
      inversion Hs1 as [|? ? Hs Hall]; subst.
      rewrite Forall_forall in Hall.
      constructor.
      * apply IH. repeat split; auto.
      * apply Forall_forall. intros x Hx.
        apply in_app_or in Hx. destruct Hx as [Hx|[<-|Hx]].
        -- now apply Hall.
        -- apply Hle. now left.
        -- specialize (Hle a (or_introl eq_refl)).
           specialize (Hge x Hx). lia.
Qed.

Lemma ordered_sorted (t : tree) : ordered t <-> sorted (elements t).
Proof.
  induction t as [|d l IHl r IHr h]; simpl.
  - split; [constructor | trivial].
  - rewrite sorted_app_cons, IHl, IHr. tauto.
Qed.

Lemma bst_ordered (t : tree) : bst t -> ordered t.
Proof.
  induction t as [|d l IHl r IHr h]; simpl; [trivial|].
  intros (Hl & Hr & Hlt & Hge). repeat split; auto.
  intros x Hx. specialize (Hlt x Hx). lia.
Qed.

Lemma insert_sorted_in (x y : Z) (l : list Z) :
  In y (insert_sorted x l) <-> y = x \/ In y l.
Proof.
  induction l as [|a l IH]; simpl.
  - intuition.
  - destruct (x <? a); simpl; [intuition|]. rewrite IH. intuition.
Qed.

Lemma insert_sorted_sorted (x : Z) (l : list Z) :
  sorted l -> sorted (insert_sorted x l).
Proof.
  induction l as [|a l IH]; simpl; intros Hs.
  - repeat constructor.
  - inversion Hs as [|? ? Hs' Hall]; subst.
    rewrite Forall_forall in Hall.
    destruct (Z.ltb_spec x a).
    + constructor; [assumption|]. apply Forall_forall.
      intros y [<-|Hy]; [lia|]. specialize (Hall y Hy). lia.
    + constructor; [auto|]. apply Forall_forall.
      intros y Hy. apply insert_sorted_in in Hy.
      destruct Hy as [->|Hy]; [lia | auto].
Qed.

Lemma insert_sorted_perm (x : Z) (l : list Z) :
  Permutation (x :: l) (insert_sorted x l).
Proof.
  induction l as [|a l IH]; simpl; [reflexivity|].
  destruct (x <? a); [reflexivity|].
  rewrite perm_swap. now constructor.
Qed.

Lemma insert_sorted_left (x d : Z) (l1 l2 : list Z) :
  x < d ->
  insert_sorted x (l1 ++ d :: l2) = insert_sorted x l1 ++ d :: l2.
Proof.
  intros Hlt. induction l1 as [|a l1 IH]; simpl.
  - destruct (Z.ltb_spec x d); [reflexivity | lia].
  - destruct (x <? a); [reflexivity|]. simpl. now rewrite IH.
Qed.

Lemma insert_sorted_right (x d : Z) (l1 l2 : list Z) :
  (forall y, In y l1 -> y <= x) -> d <= x ->
  insert_sorted x (l1 ++ d :: l2) = l1 ++ d :: insert_sorted x l2.
Proof.
  intros Hle Hd. induction l1 as [|a l1 IH]; simpl.
  - destruct (Z.ltb_spec x d); [lia | reflexivity].
  - destruct (Z.ltb_spec x a).
    + specialize (Hle a (or_introl eq_refl)). lia.
    + rewrite IH; [reflexivity|]. intros y Hy. apply Hle. now right.
Qed.

Lemma sort_sorted (l : list Z) : sorted (sort l).
Proof.
  induction l as [|a l IH]; simpl; [constructor|].
  now apply insert_sorted_sorted.
Qed.

Lemma sort_perm (l : list Z) : Permutation l (sort l).
Proof.
  induction l as [|a l IH]; simpl; [constructor|].
  rewrite <- insert_sorted_perm. now constructor.
Qed.

Lemma remove_one_notin (x : Z) (l : list Z) :
  ~ In x l -> remove_one x l = l.
Proof.
  induction l as [|a l IH]; simpl; intros Hn; [reflexivity|].
  destruct (Z.eqb_spec x a) as [->|Hne]; [tauto|].
  rewrite IH; tauto.
Qed.

Lemma remove_one_app_in (x : Z) (l1 l2 : list Z) :
  In x l1 -> remove_one x (l1 ++ l2) = remove_one x l1 ++ l2.
Proof.
  induction l1 as [|a l1 IH]; simpl; intros Hin; [tauto|].
  destruct (Z.eqb_spec x a) as [->|Hne]; [reflexivity|].
  simpl. rewrite IH; [reflexivity|]. destruct Hin; congruence.
Qed.

Lemma remove_one_app_notin (x : Z) (l1 l2 : list Z) :
  ~ In x l1 -> remove_one x (l1 ++ l2) = l1 ++ remove_one x l2.
Proof.
  induction l1 as [|a l1 IH]; simpl; intros Hn; [reflexivity|].
  destruct (Z.eqb_spec x a) as [->|Hne]; [tauto|].
  rewrite IH; tauto.
Qed.

Lemma all_equal_commute (v : Z) (l1 l2 : list Z) :
  (forall x, In x l1 -> x = v) -> l1 ++ v :: l2 = v :: l1 ++ l2.
Proof.
  induction l1 as [|a l1 IH]; simpl; intros Hall; [reflexivity|].
  rewrite (Hall a (or_introl eq_refl)).
  rewrite IH; [reflexivity|]. intros x Hx. apply Hall. now right.
Qed.

(** In a non-decreasing list it does not matter which occurrence goes. *)
Lemma remove_one_middle (v : Z) (l1 l2 : list Z) :
  sorted (l1 ++ v :: l2) -> remove_one v (l1 ++ v :: l2) = l1 ++ l2.
Proof.
  induction l1 as [|a l1 IH]; simpl; intros Hs.
  - now rewrite Z.eqb_refl.
  - inversion Hs as [|? ? Hs' Hall]; subst.
    destruct (Z.eqb_spec v a) as [->|Hne].
    + f_equal. apply all_equal_commute.
      apply sorted_app_cons in Hs'. destruct Hs' as (_ & _ & Hle & _).
      rewrite Forall_forall in Hall.
      intros x Hx. specialize (Hle x Hx).
      specialize (Hall x (in_or_app _ _ _ (or_introl Hx))). lia.
    + now rewrite IH.
Qed.

Lemma remove_one_in (x y : Z) (l : list Z) :
  In y (remove_one x l) -> In y l.
Proof.
  induction l as [|a l IH]; simpl; [tauto|].
  destruct (x =? a); simpl; intuition.
Qed.

Lemma remove_one_sorted (x : Z) (l : list Z) :
  sorted l -> sorted (remove_one x l).
Proof.
  induction l as [|a l IH]; simpl; intros Hs; [constructor|].
  inversion Hs as [|? ? Hs' Hall]; subst.
  destruct (x =? a); [assumption|].
  constructor; [auto|]. rewrite Forall_forall in *.
  intros y Hy. apply Hall. eapply remove_one_in, Hy.
Qed.

Lemma remove_one_perm (x : Z) (l : list Z) :
  In x l -> Permutation l (x :: remove_one x l).
Proof.
  induction l as [|a l IH]; simpl; intros Hin; [tauto|].
  destruct (Z.eqb_spec x a) as [->|Hne]; [reflexivity|].
  rewrite perm_swap. constructor. apply IH. destruct Hin; congruence.
Qed.

Lemma remove_one_length (x : Z) (l : list Z) :
  In x l -> S (length (remove_one x l)) = length l.
Proof.
  intros Hin. apply remove_one_perm, Permutation_length in Hin.
  simpl in Hin. congruence.
Qed.

Lemma remove_one_count (x y : Z) (l : list Z) :
  count_occ Z.eq_dec (remove_one x l) y =
  if Z.eq_dec x y
  then Nat.pred (count_occ Z.eq_dec l y)
  else count_occ Z.eq_dec l y.
Proof.
  induction l as [|a l IH]; simpl.
  - now destruct (Z.eq_dec x y).
  - destruct (Z.eqb_spec x a) as [->|Hne].
    + destruct (Z.eq_dec a y); reflexivity.
    + simpl. rewrite IH.
      destruct (Z.eq_dec x y), (Z.eq_dec a y); try congruence; try reflexivity.
Qed.

Lemma remove_one_respects_perm (x : Z) (l l' : list Z) :
  Permutation l l' -> Permutation (remove_one x l) (remove_one x l').
Proof.
  intros HP.
  rewrite (Permutation_count_occ Z.eq_dec). intros y.
  rewrite !remove_one_count.
  rewrite (Permutation_count_occ Z.eq_dec) in HP. now rewrite (HP y).
Qed.

End SortedLists.

(* ================================================================= *)
(** ** Content of the tree under insert and delete *)


Lemma height_nonneg (t : tree) : heights_positive t -> 0 <= get_height t.
Proof. destruct t; simpl; intros; lia. Qed.

Lemma refresh_positive (d : Z) (l r : tree) :
  heights_positive l -> heights_positive r -> heights_positive (refresh d l r).
Proof.
  intros Hl Hr. simpl. repeat split; auto.
  apply height_nonneg in Hl, Hr. lia.
Qed.

Lemma right_rotate_elements (y t : tree) :
  right_rotate y = Some t -> elements t = elements y.
Proof.
  destruct y as [|yd [|xd xl T2 xh] yr yh]; simpl; try discriminate.
  intros [= <-]. simpl. now rewrite <- app_assoc.
Qed.

Lemma left_rotate_elements (x t : tree) :
  left_rotate x = Some t -> elements t = elements x.
Proof.
  destruct x as [|xd xl [|yd T2 yr yh] xh]; simpl; try discriminate.
  intros [= <-]. simpl. now rewrite <- app_assoc.
Qed.

Lemma right_rotate_positive (y t : tree) :
  heights_positive y -> right_rotate y = Some t -> heights_positive t.
Proof.
  destruct y as [|yd [|xd xl T2 xh] yr yh]; simpl; try discriminate.
  intros (Hx & Hyr & _) [= <-]. destruct Hx as (Hxl & HT2 & _).
  apply refresh_positive; [assumption|]. now apply refresh_positive.
Qed.

Lemma left_rotate_positive (x t : tree) :
  heights_positive x -> left_rotate x = Some t -> heights_positive t.
Proof.
  destruct x as [|xd xl [|yd T2 yr yh] xh]; simpl; try discriminate.
  intros (Hxl & Hy & _) [= <-]. destruct Hy as (HT2 & Hyr & _).
  apply refresh_positive; [|assumption]. now apply refresh_positive.
Qed.

Lemma finish_spec (st : tree) (o : option tree) (P : tree -> Prop) :
  P st -> (forall t, o = Some t -> P t) -> P (tree_of (finish st o)).
Proof. destruct o; simpl; auto. Qed.


Lemma keeps_refresh (nd : Z) (l r : tree) :
  heights_positive l -> heights_positive r -> keeps nd l r (refresh nd l r).
Proof. split; [reflexivity| now apply refresh_positive]. Qed.

Lemma keeps_right_rotate (nd : Z) (l r : tree) (h : Z) (t : tree) :
  heights_positive l -> heights_positive r -> 1 <= h ->
  right_rotate (Node nd l r h) = Some t -> keeps nd l r t.
Proof.
  intros Hl Hr Hh Hrot. split.
  - now rewrite (right_rotate_elements _ _ Hrot).
  - eapply right_rotate_positive; [|exact Hrot]. simpl; auto.
Qed.

Lemma keeps_left_rotate (nd : Z) (l r : tree) (h : Z) (t : tree) :
  heights_positive l -> heights_positive r -> 1 <= h ->
  left_rotate (Node nd l r h) = Some t -> keeps nd l r t.
Proof.
  intros Hl Hr Hh Hrot. split.
  - now rewrite (left_rotate_elements _ _ Hrot).
  - eapply left_rotate_positive; [|exact Hrot]. simpl; auto.
Qed.

Lemma insert_rebalance_keeps (nd : Z) (l r : tree) (data : Z) :
  heights_positive l -> heights_positive r ->
  keeps nd l r (tree_of (insert_rebalance nd l r data)).
Proof.
  intros Hl Hr.
  pose proof (height_nonneg _ Hl) as Hl0. pose proof (height_nonneg _ Hr) as Hr0.
  assert (Hh : 1 <= Z.max (get_height l) (get_height r) + 1) by lia.
  pose proof (keeps_refresh nd l r Hl Hr) as Hk.
  unfold insert_rebalance, refresh in *.
  destruct (cond _ l _) as [[|]|]; simpl; try exact Hk.
  { apply finish_spec; [exact Hk|]. intros t Ht. eapply keeps_right_rotate; eauto. }
  destruct (cond _ r _) as [[|]|]; simpl; try exact Hk.
  { apply finish_spec; [exact Hk|]. intros t Ht. eapply keeps_left_rotate; eauto. }
  destruct (cond _ l _) as [[|]|]; simpl; try exact Hk.
  { destruct (left_rotate l) as [l2|] eqn:Hrot; simpl; [|exact Hk].
    pose proof (left_rotate_elements _ _ Hrot) as He.
    pose proof (left_rotate_positive _ _ Hl Hrot) as Hp.
    apply finish_spec.
    - split; simpl; [now rewrite He | auto].
    - intros t Ht. destruct (keeps_right_rotate nd l2 r _ t Hp Hr Hh Ht) as [E P].
      split; [now rewrite E, He | exact P]. }
  destruct (cond _ r _) as [[|]|]; simpl; try exact Hk.
  destruct (right_rotate r) as [r2|] eqn:Hrot; simpl; [|exact Hk].
  pose proof (right_rotate_elements _ _ Hrot) as He.
  pose proof (right_rotate_positive _ _ Hr Hrot) as Hp.
  apply finish_spec.
  - split; simpl; [now rewrite He | auto].
  - intros t Ht. destruct (keeps_left_rotate nd l r2 _ t Hl Hp Hh Ht) as [E P].
    split; [now rewrite E, He | exact P].
Qed.

Ltac zbool :=
  repeat match goal with
  | H : (_ && _) = true |- _ => apply andb_prop in H; destruct H
  | H : (_ && _) = false |- _ => apply andb_false_iff in H; destruct H
  | H : (_ >? _) = _ |- _ => rewrite Z.gtb_ltb in H
  | H : (_ >=? _) = _ |- _ => rewrite Z.geb_leb in H
  | H : (_ <? _) = true |- _ => apply Z.ltb_lt in H
  | H : (_ <? _) = false |- _ => apply Z.ltb_ge in H
  | H : (_ <=? _) = true |- _ => apply Z.leb_le in H
  | H : (_ <=? _) = false |- _ => apply Z.leb_gt in H
  | H : (_ =? _) = true |- _ => apply Z.eqb_eq in H
  | H : (_ =? _) = false |- _ => apply Z.eqb_neq in H
  end.

Ltac split_if C :=
  match goal with |- context [if ?c then _ else _] => destruct c eqn:C end.

Lemma right_rotate_defined (nd : Z) (l r : tree) (h : Z) :
  heights_positive l -> 0 < get_height l ->
  exists t, right_rotate (Node nd l r h) = Some t.
Proof. destruct l; simpl; intros; [lia | eauto]. Qed.

Lemma left_rotate_defined (nd : Z) (l r : tree) (h : Z) :
  heights_positive r -> 0 < get_height r ->
  exists t, left_rotate (Node nd l r h) = Some t.
Proof. destruct r; simpl; intros; [lia | eauto]. Qed.

Lemma delete_rebalance_keeps (nd : Z) (l r : tree) :
  heights_positive l -> heights_positive r ->
  exists t, delete_rebalance nd l r = Returned t /\ keeps nd l r t.
Proof.
  intros Hl Hr.
  pose proof (height_nonneg _ Hl) as Hl0. pose proof (height_nonneg _ Hr) as Hr0.
  assert (Hh : 1 <= Z.max (get_height l) (get_height r) + 1) by lia.
  pose proof (keeps_refresh nd l r Hl Hr) as Hk.
  unfold delete_rebalance, refresh in *. cbv zeta. simpl get_balance at 1 3 5 7.
  simpl get_height at 1.
  split_if Hcase1.
  { zbool. destruct (right_rotate_defined nd l r (Z.max (get_height l) (get_height r) + 1) Hl) as [t Ht]; [lia|].
    rewrite Ht. simpl. eexists; split; [reflexivity|]. eapply keeps_right_rotate; eauto. }
  split_if Hcase2.
  { zbool; try lia.
    all: destruct l as [|ld ll lr lh]; [simpl in *; lia|].
    all: destruct Hl as (Hll & Hlr & Hlh).
    all: pose proof (height_nonneg _ Hll).
    all: destruct (left_rotate_defined ld ll lr lh Hlr) as [l2 Hl2]; [simpl in *; lia|].
    all: rewrite Hl2.
    all: assert (Hp2 : heights_positive l2) by (eapply left_rotate_positive; [|exact Hl2]; simpl; auto).
    all: destruct l2 as [|d2 a2 b2 h2]; [destruct lr; discriminate|].
    all: simpl; eexists; split; [reflexivity|].
    all: destruct (keeps_right_rotate nd (Node d2 a2 b2 h2) r
                (Z.max (get_height (Node ld ll lr lh)) (get_height r) + 1) _ Hp2 Hr Hh eq_refl) as [E P].
    all: split; [|exact P]; rewrite E; now rewrite (left_rotate_elements _ _ Hl2). }
  split_if Hcase3.
  { zbool; try lia. 
    all: destruct (left_rotate_defined nd l r (Z.max (get_height l) (get_height r) + 1) Hr) as [t Ht]; [lia|].
    all: rewrite Ht; simpl; eexists; split; [reflexivity|]; eapply keeps_left_rotate; eauto. }
  split_if Hcase4.
  { zbool; try lia.
    all: destruct r as [|rd rl rr rh]; [simpl in *; lia|].
    all: destruct Hr as (Hrl & Hrr & Hrh).
    all: pose proof (height_nonneg _ Hrr).
    all: destruct (right_rotate_defined rd rl rr rh Hrl) as [r2 Hr2]; [simpl in *; lia|].
    all: rewrite Hr2.
    all: assert (Hp2 : heights_positive r2) by (eapply right_rotate_positive; [|exact Hr2]; simpl; auto).
    all: destruct r2 as [|d2 a2 b2 h2]; [destruct rl; discriminate|].
    all: simpl; eexists; split; [reflexivity|].
    all: destruct (keeps_left_rotate nd l (Node d2 a2 b2 h2)
                (Z.max (get_height l) (get_height (Node rd rl rr rh)) + 1) _ Hl Hp2 Hh eq_refl) as [E P].
    all: split; [|exact P]; rewrite E; now rewrite (right_rotate_elements _ _ Hr2). }
  eexists; split; [reflexivity | exact Hk].
Qed.

Lemma insert_recursive_keeps (t : tree) (data : Z) :
  ordered t -> heights_positive t ->
  elements (tree_of (insert_recursive t data)) = insert_sorted data (elements t) /\
  heights_positive (tree_of (insert_recursive t data)).
Proof.
  induction t as [|nd l IHl r IHr h]; simpl.
  - intros _ _. repeat split; lia.
  - intros (Ol & Or & Hle & Hge) (Hl & Hr & Hh).
    destruct (Z.ltb_spec data nd) as [Hlt|Hge'].
    + destruct (IHl Ol Hl) as [El Pl].
      rewrite insert_sorted_left by assumption.
      destruct (insert_recursive l data) as [l'|l']; simpl in *.
      * destruct (insert_rebalance_keeps nd l' r data Pl Hr) as [E P].
        split; [|exact P]. now rewrite E, El.
      * rewrite El. auto.
    + destruct (IHr Or Hr) as [Er Pr].
      rewrite insert_sorted_right;
        [|intros y Hy; specialize (Hle y Hy); lia | assumption].
      destruct (insert_recursive r data) as [r'|r']; simpl in *.
      * destruct (insert_rebalance_keeps nd l r' data Hl Pr) as [E P].
        split; [|exact P]. now rewrite E, Er.
      * rewrite Er. auto.
Qed.

Lemma leftmost_first (l : tree) :
  forall d tail, exists rest, elements l ++ d :: tail = leftmost d l :: rest.
Proof.
  induction l as [|d' l' IH r' _ h']; intros d tail; simpl.
  - eauto.
  - rewrite <- app_assoc. simpl. apply IH.
Qed.

Lemma rightmost_last (r : tree) :
  forall d front, exists rest, front ++ d :: elements r = rest ++ [rightmost d r].
Proof.
  induction r as [|d' l' _ r' IH h']; intros d front; simpl.
  - eauto.
  - destruct (IH d' (front ++ d :: elements l')) as [rest Hrest].
    exists rest. rewrite <- Hrest, <- app_assoc. reflexivity.
Qed.

Lemma delete_recursive_keeps (t : tree) :
  forall data, ordered t -> heights_positive t ->
  exists t', delete_recursive t data = Returned t' /\
             elements t' = remove_one data (elements t) /\
             heights_positive t'.
Proof.
  induction t as [|nd l IHl r IHr h]; intros data; simpl.
  - intros _ _. eexists; repeat split.
  - intros (Ol & Or & Hle & Hge) (Hl & Hr & Hh).
    assert (Hs : StronglySorted Z.le (elements l ++ nd :: elements r)).
    { apply (ordered_sorted (Node nd l r h)). simpl; auto. }
    destruct (Z.ltb_spec data nd) as [Hlt|Hnlt].
    + destruct (IHl data Ol Hl) as (l' & -> & El & Pl).
      destruct (delete_rebalance_keeps nd l' r Pl Hr) as (t' & -> & E & P).
      exists t'. repeat split; [|exact P]. rewrite E, El.
      destruct (in_dec Z.eq_dec data (elements l)) as [Hin|Hnin].
      * now rewrite remove_one_app_in.
      * rewrite remove_one_app_notin by assumption. simpl.
        destruct (Z.eqb_spec data nd); [lia|].
        rewrite !remove_one_notin; auto.
        intros Hin. specialize (Hge _ Hin). lia.
    + rewrite Z.gtb_ltb. destruct (Z.ltb_spec nd data) as [Hgt|Hngt].
      * destruct (IHr data Or Hr) as (r' & -> & Er & Pr).
        destruct (delete_rebalance_keeps nd l r' Hl Pr) as (t' & -> & E & P).
        exists t'. repeat split; [|exact P]. rewrite E, Er.
        rewrite remove_one_app_notin.
        -- simpl. destruct (Z.eqb_spec data nd); [lia | reflexivity].
        -- intros Hin. specialize (Hle _ Hin). lia.
      * assert (data = nd) by lia. subst data.
        rewrite remove_one_middle by assumption.
        destruct l as [|ld ll lr lh].
        { exists r. repeat split; auto. }
        destruct r as [|rd rl rr rh].
        { exists (Node ld ll lr lh). simpl elements. rewrite app_nil_r. auto. }
        destruct (IHr (leftmost rd rl) Or Hr) as (r' & -> & Er & Pr).
        destruct (delete_rebalance_keeps (leftmost rd rl) (Node ld ll lr lh) r' Hl Pr)
          as (t' & -> & E & P).
        exists t'. repeat split; [|exact P]. rewrite E, Er.
        f_equal. simpl elements.
        destruct (leftmost_first rl rd (elements rr)) as [rest ->].
        simpl. now rewrite Z.eqb_refl.
Qed.

Lemma search_recursive_spec (t : tree) (v : Z) :
  ordered t -> (search_recursive t v = true <-> In v (elements t)).
Proof.
  induction t as [|nd l IHl r IHr h]; simpl.
  - intros _. split; [discriminate | tauto].
  - intros (Ol & Or & Hle & Hge).
    rewrite in_app_iff. simpl.
    destruct (Z.eqb_spec v nd) as [->|Hne]; [tauto|].
    destruct (Z.ltb_spec v nd) as [Hlt|Hnlt].
    + rewrite (IHl Ol). split; [tauto|].
      intros [H|[H|H]]; [assumption | congruence |].
      specialize (Hge _ H). lia.
    + rewrite (IHr Or). split; [tauto|].
      intros [H|[H|H]]; [| congruence | assumption].
      specialize (Hle _ H). lia.
Qed.


Lemma insert_well_formed (self : AVLTree) (v : Z) :
  well_formed (root self) ->
  well_formed (root (fst (insert self v))) /\
  elements (root (fst (insert self v))) = insert_sorted v (elements (root self)).
Proof.
  intros [Ho Hp]. destruct (insert_recursive_keeps (root self) v Ho Hp) as [E P].
  assert (Hroot : root (fst (insert self v)) = tree_of (insert_recursive (root self) v)).
  { unfold insert. now destruct (insert_recursive (root self) v). }
  rewrite Hroot. repeat split; auto.
  apply ordered_sorted. rewrite E. apply insert_sorted_sorted.
  now apply ordered_sorted.
Qed.

Lemma delete_well_formed (self : AVLTree) (v : Z) :
  well_formed (root self) ->
  well_formed (root (fst (delete self v))) /\
  elements (root (fst (delete self v))) = remove_one v (elements (root self)) /\
  snd (delete self v) = Ok (negb (is_empty self)).
Proof.
  intros [Ho Hp]. unfold delete, is_empty.
  destruct (root self) as [|d l r h] eqn:Hroot.
  - simpl. rewrite Hroot. repeat split; simpl; auto.
  - destruct (delete_recursive_keeps (Node d l r h) v Ho Hp) as (t' & Hdel & E & P).
    rewrite Hdel. simpl. repeat split; auto.
    apply ordered_sorted. rewrite E. apply remove_one_sorted.
    now apply (ordered_sorted (Node d l r h)).
Qed.

Lemma exec_bag (ops : list op) :
  forall self b,
    well_formed (root self) -> Permutation (elements (root self)) b ->
    well_formed (root (exec self ops)) /\
    Permutation (elements (root (exec self ops))) (fold_left bag_step ops b).
Proof.
  induction ops as [|o ops IH]; intros self b Hwf HP; simpl; [auto|].
  apply IH.
  - destruct o as [v|v]; simpl.
    + apply insert_well_formed, Hwf.
    + apply delete_well_formed, Hwf.
  - destruct o as [v|v]; simpl.
    + destruct (insert_well_formed self v Hwf) as [_ ->].
      rewrite <- insert_sorted_perm. now constructor.
    + destruct (delete_well_formed self v Hwf) as (_ & -> & _).
      now apply remove_one_respects_perm.
Qed.

Lemma bag_subset (ops : list op) (v : Z) :
  forall b, In v (fold_left bag_step ops b) -> In v b \/ In (Insert v) ops.
Proof.
  induction ops as [|o ops IH]; intros b Hin; simpl in *; [auto|].
  apply IH in Hin. destruct Hin as [Hin|Hin]; [|auto].
  destruct o as [w|w]; simpl in Hin.
  - destruct Hin as [->|Hin]; auto.
  - left. eapply remove_one_in, Hin.
Qed.

(** C4. After any finite sequence of insertions and deletions on a fresh
    tree, [search(v)] returns [True] exactly when the sequence leaves at
    least one occurrence of [v] (inserted and not all of its occurrences
    deleted since), and [False] for a value that was never inserted.  The
    statement covers sequences in which an insertion raises: the value is in
    the tree all the same. *)
Theorem search_correct (ops : list op) (v : Z) :
  (search (exec empty ops) v = true <-> In v (bag ops)) /\
  (search (exec empty ops) v = true <-> (0 < count_occ Z.eq_dec (bag ops) v)%nat) /\
  (~ In (Insert v) ops -> search (exec empty ops) v = false).
Proof.
  assert (Hwf : well_formed (root empty)) by (simpl; split; exact I).
  destruct (exec_bag ops empty [] Hwf (Permutation_refl _)) as [[Ho Hp] HP].
  fold (bag ops) in HP.
  assert (Hiff : search (exec empty ops) v = true <-> In v (bag ops)).
  { unfold search. rewrite (search_recursive_spec _ v Ho).
    split; intros H; [now rewrite <- HP | now rewrite HP]. }
  split; [exact Hiff|]. split.
  - rewrite Hiff. apply (count_occ_In Z.eq_dec).
  - intros Hnever. apply not_true_is_false. intros Hs.
    apply Hiff, bag_subset in Hs. destruct Hs as [[]|Hs]. tauto.
Qed.

Lemma search_correct_witness :
  let ops := [Insert 3; Insert 5; Delete 3] in
  search (exec empty ops) 5 = true /\ search (exec empty ops) 7 = false.
Proof.
  split.
  - apply (proj1 (search_correct [Insert 3; Insert 5; Delete 3] 5)).
    vm_compute. left. reflexivity.
  - apply (proj2 (proj2 (search_correct [Insert 3; Insert 5; Delete 3] 7))).
    intros [H|[H|[H|[]]]]; discriminate H.
Defined.

Lemma run_exec (ops : list op) :
  forall self t, run self ops = Some t -> t = exec self ops.
Proof.
  induction ops as [|o ops IH]; intros self t; simpl.
  - now intros [= <-].
  - destruct (raises self o); [discriminate | apply IH].
Qed.

(* ================================================================= *)
(** ** Minimum and maximum *)

Lemma leftmost_least (l : tree) :
  forall d, ordered l -> (forall x, In x (elements l) -> x <= d) ->
  leftmost d l <= d /\ forall x, In x (elements l) -> leftmost d l <= x.
Proof.
  induction l as [|d' l' IH r' _ h']; intros d Ho Hle; simpl.
  - split; [lia | intros x []].
  - destruct Ho as (Ol & Or & Hle' & Hge').
    destruct (IH d' Ol Hle') as [Hd' Hall].
    assert (d' <= d) by (apply Hle; simpl; apply in_or_app; right; now left).
    split; [lia|]. intros x Hx. apply in_app_or in Hx.
    destruct Hx as [Hx|[<-|Hx]]; [auto | assumption |].
    specialize (Hge' x Hx). lia.
Qed.

Lemma rightmost_greatest (r : tree) :
  forall d, ordered r -> (forall x, In x (elements r) -> d <= x) ->
  d <= rightmost d r /\ forall x, In x (elements r) -> x <= rightmost d r.
Proof.
  induction r as [|d' l' _ r' IH h']; intros d Ho Hge; simpl.
  - split; [lia | intros x []].
  - destruct Ho as (Ol & Or & Hle' & Hge').
    destruct (IH d' Or Hge') as [Hd' Hall].
    assert (d <= d') by (apply Hge; simpl; apply in_or_app; right; now left).
    split; [lia|]. intros x Hx. apply in_app_or in Hx.
    destruct Hx as [Hx|[<-|Hx]]; [| assumption | auto].
    specialize (Hle' x Hx). lia.
Qed.

(** C7. [get_min] and [get_max] raise [ValueError] exactly when the tree has
    no root.  On a non-empty tree both return a value: the first and the
    last value of the in-order traversal (the leftmost and the rightmost
    node), which on an ordered tree are the least and the greatest stored
    value. *)
Theorem get_min_get_max_spec (self : AVLTree) :
  (get_min self = Exc ValueError <-> root self = Nil) /\
  (get_max self = Exc ValueError <-> root self = Nil) /\
  (root self <> Nil ->
   exists m M front rest,
     get_min self = Ok m /\ get_max self = Ok M /\
     inorder_traversal self = m :: rest /\
     inorder_traversal self = front ++ [M] /\
     (ordered (root self) ->
      forall x, In x (inorder_traversal self) -> m <= x <= M)).
Proof.
  rewrite inorder_traversal_elements. unfold get_min, get_max.
  destruct (root self) as [|d l r h].
  - repeat split; auto. congruence.
  - split; [split; discriminate|]. split; [split; discriminate|].
    intros _.
    destruct (leftmost_first l d (elements r)) as [rest Hrest].
    destruct (rightmost_last r d (elements l)) as [front Hfront].
    exists (leftmost d l), (rightmost d r), front, rest.
    repeat split; auto.
    + destruct H as (Ol & Or & Hle & Hge).
      destruct (leftmost_least l d Ol Hle) as [Hd Hall].
      simpl in H0. apply in_app_or in H0.
      destruct H0 as [Hx|[<-|Hx]]; [auto | assumption |].
      specialize (Hge x Hx). lia.
    + destruct H as (Ol & Or & Hle & Hge).
      destruct (rightmost_greatest r d Or Hge) as [Hd Hall].
      simpl in H0. apply in_app_or in H0.
      destruct H0 as [Hx|[<-|Hx]]; [| assumption | auto].
      specialize (Hle x Hx). lia.
Qed.

Lemma get_min_get_max_spec_witness :
  let self := exec empty (insert_all [10; 20; 30; 40; 50; 25]) in
  root self <> Nil /\ ordered (root self) /\
  exists m M front rest,
    get_min self = Ok m /\ get_max self = Ok M /\
    inorder_traversal self = m :: rest /\
    inorder_traversal self = front ++ [M] /\
    (ordered (root self) ->
     forall x, In x (inorder_traversal self) -> m <= x <= M).
Proof.
  assert (Hne : root (exec empty (insert_all [10; 20; 30; 40; 50; 25])) <> Nil)
    by (vm_compute; discriminate).
  split; [exact Hne|]. split.
  - apply ordered_sorted.
    replace (elements (root (exec empty (insert_all [10; 20; 30; 40; 50; 25]))))
      with [10; 20; 25; 30; 40; 50] by (vm_compute; reflexivity).
    repeat first [ apply SSorted_nil | apply SSorted_cons
                 | apply Forall_nil | apply Forall_cons; [lia|] ].
  - exact (proj2 (proj2 (get_min_get_max_spec
             (exec empty (insert_all [10; 20; 30; 40; 50; 25])))) Hne).
Defined.

(* ================================================================= *)
(** ** Balance under insert and delete *)


Lemma avl_height_nonneg (t : tree) : avl t -> 0 <= get_height t.
Proof.
  induction t as [|d l IHl r IHr h]; simpl; [lia|].
  intros (Hl & Hr & -> & _). specialize (IHl Hl). lia.
Qed.

Lemma avl_heights_positive (t : tree) : avl t -> heights_positive t.
Proof.
  induction t as [|d l IHl r IHr h]; simpl; [trivial|].
  intros (Hl & Hr & -> & _). repeat split; auto.
  apply avl_height_nonneg in Hl. lia.
Qed.

Lemma avl_real_height (t : tree) : avl t -> get_height t = real_height t.
Proof.
  induction t as [|d l IHl r IHr h]; simpl; [reflexivity|].
  intros (Hl & Hr & -> & _). now rewrite IHl, IHr.
Qed.

Ltac norm :=
  unfold refresh in *;
  cbn [avl get_height get_balance right_rotate left_rotate finish] in *.

Ltac unpack :=
  norm;
  repeat match goal with H : _ /\ _ |- _ => destruct H end;
  repeat match goal with
         | H : avl ?t |- _ =>
             lazymatch goal with
             | _ : 0 <= get_height t |- _ => fail
             | _ => pose proof (avl_height_nonneg t H)
             end
         end.

Ltac split_if' :=
  match goal with |- context [if ?c then _ else _] => destruct c eqn:? end.

Ltac conclude :=
  norm; eexists; split; [reflexivity|]; norm; repeat split; auto; lia.

Lemma delete_rebalance_avl (nd : Z) (l r : tree) :
  avl l -> avl r -> -2 <= get_height l - get_height r <= 2 ->
  exists t,
    delete_rebalance nd l r = Returned t /\ avl t /\
    (-1 <= get_height l - get_height r <= 1 ->
     get_height t = Z.max (get_height l) (get_height r) + 1) /\
    (get_height t = Z.max (get_height l) (get_height r) \/
     get_height t = Z.max (get_height l) (get_height r) + 1).
Proof.
  intros Hl Hr Hb. unfold delete_rebalance, refresh. cbv zeta.
  destruct l as [|ld ll [|lrd lrl lrr lrh] lh];
    destruct r as [|rd [|rld rll rlr rlh] rr rh];
    unpack; subst;
    repeat (split_if'; zbool; try lia);
    conclude.
Qed.

Lemma delete_recursive_avl (t : tree) :
  forall data, avl t ->
  exists t', delete_recursive t data = Returned t' /\ avl t' /\
             (get_height t' = get_height t \/ get_height t' = get_height t - 1).
Proof.
  induction t as [|nd l IHl r IHr h]; intros data Havl.
  - exists Nil. simpl. auto.
  - destruct Havl as (Hl & Hr & Hh & Hb).
    pose proof (avl_height_nonneg l Hl). pose proof (avl_height_nonneg r Hr).
    cbn [delete_recursive get_height].
    destruct (data <? nd).
    { destruct (IHl data Hl) as (l' & -> & Hl' & Hhl).
      destruct (delete_rebalance_avl nd l' r Hl' Hr) as (t' & -> & Ht' & Hk & Hd);
        [lia|].
      exists t'. repeat split; auto. lia. }
    destruct (data >? nd).
    { destruct (IHr data Hr) as (r' & -> & Hr' & Hhr).
      destruct (delete_rebalance_avl nd l r' Hl Hr') as (t' & -> & Ht' & Hk & Hd);
        [lia|].
      exists t'. repeat split; auto. lia. }
    destruct l as [|ld ll lr lh].
    { exists r. cbn [get_height] in *.
      split; [reflexivity|]. split; [exact Hr | lia]. }
    destruct r as [|rd rl rr rh].
    { exists (Node ld ll lr lh). cbn [get_height] in *.
      split; [reflexivity|]. split; [exact Hl | lia]. }
    destruct (IHr (leftmost rd rl) Hr) as (r' & -> & Hr' & Hhr).
    destruct (delete_rebalance_avl (leftmost rd rl) (Node ld ll lr lh) r' Hl Hr')
      as (t' & -> & Ht' & Hk & Hd); [lia|].
    exists t'. repeat split; auto. lia.
Qed.

Ltac norm_ins :=
  unfold cond, refresh in *;
  cbn [avl get_height get_balance right_rotate left_rotate finish
       option_map data_of] in *.

Ltac conclude_ins :=
  norm_ins; eexists; split; [reflexivity|]; norm_ins; unfold grows;
  cbn [get_height];
  split;
  [ repeat split; auto; lia
  | match goal with
    | |- ?a = ?b \/ _ =>
        destruct (Z.eq_dec a b);
        [ left; assumption
        | right; split; [lia|]; right; first [left; lia | right; lia] ]
    end ].

Lemma insert_rebalance_left_avl (nd : Z) (l0 l r : tree) (data : Z) :
  avl l -> avl r -> avl l0 ->
  -1 <= get_height l0 - get_height r <= 1 ->
  grows l0 l data -> data < nd ->
  exists t,
    insert_rebalance nd l r data = Returned t /\ avl t /\
    grows (refresh nd l0 r) t data.
Proof.
  intros Hl Hr Hl0 Hb Hg Hlt. unfold insert_rebalance. cbv zeta.
  pose proof (avl_height_nonneg l0 Hl0).
  destruct Hg as [Hg|[Hg [->|Hg']]];
    destruct l as [|ld ll [|lrd lrl lrr lrh] lh];
    unpack; norm_ins; subst;
    try lia; try contradiction;
    repeat (split_if'; zbool; norm_ins; try lia);
    conclude_ins.
Qed.

Lemma insert_rebalance_right_avl (nd : Z) (l r0 r : tree) (data : Z) :
  avl l -> avl r -> avl r0 ->
  -1 <= get_height l - get_height r0 <= 1 ->
  grows r0 r data -> nd < data ->
  exists t,
    insert_rebalance nd l r data = Returned t /\ avl t /\
    grows (refresh nd l r0) t data.
Proof.
  intros Hl Hr Hr0 Hb Hg Hlt. unfold insert_rebalance. cbv zeta.
  pose proof (avl_height_nonneg r0 Hr0).
  destruct Hg as [Hg|[Hg [->|Hg']]];
    destruct r as [|rd [|rld rll rlr rlh] rr rh];
    unpack; norm_ins; subst;
    try lia; try contradiction;
    repeat (split_if'; zbool; norm_ins; try lia);
    conclude_ins.
Qed.

Lemma insert_recursive_avl (t : tree) (data : Z) :
  avl t -> ~ In data (elements t) ->
  exists t', insert_recursive t data = Returned t' /\ avl t' /\ grows t t' data.
Proof.
  induction t as [|nd l IHl r IHr h]; intros Havl Hfresh.
  - exists (Node data Nil Nil 1). repeat split; cbn; try lia.
    right. split; [reflexivity | now left].
  - destruct Havl as (Hl & Hr & Hh & Hb).
    assert (Hnl : ~ In data (elements l)).
    { intros Hin. apply Hfresh. simpl. apply in_or_app. now left. }
    assert (Hnr : ~ In data (elements r)).
    { intros Hin. apply Hfresh. simpl. apply in_or_app. right. now right. }
    assert (Hne : data <> nd).
    { intros ->. apply Hfresh. simpl. apply in_or_app. right. now left. }
    replace (Node nd l r h) with (refresh nd l r) by (unfold refresh; now rewrite Hh).
    cbn [insert_recursive refresh].
    destruct (Z.ltb_spec data nd) as [Hlt|Hge].
    + destruct (IHl Hl Hnl) as (l' & -> & Hl' & Hg).
      apply (insert_rebalance_left_avl nd l l' r data); auto.
    + destruct (IHr Hr Hnr) as (r' & -> & Hr' & Hg).
      apply (insert_rebalance_right_avl nd l r r' data); auto. lia.
Qed.

(** The least number of nodes of a balanced tree of a given height. *)
Lemma fib_pos (n : nat) : 0 <= fib n.
Proof.
  induction n as [n IH] using (well_founded_induction Wf_nat.lt_wf).
  destruct n as [|[|k]]; simpl; try lia.
  assert (0 <= fib (S k)) by (apply IH; lia).
  assert (0 <= fib k) by (apply IH; lia).
  simpl in *. lia.
Qed.

Lemma fib_step (n : nat) : fib (S (S n)) = fib (S n) + fib n.
Proof. reflexivity. Qed.

Lemma fib_mono (n : nat) : fib n <= fib (S n).
Proof.
  destruct n as [|n]; [simpl; lia|].
  rewrite fib_step. pose proof (fib_pos n). lia.
Qed.

Lemma avl_fib (t : tree) :
  avl t -> fib (Z.to_nat (get_height t) + 2) <= size t + 1.
Proof.
  induction t as [|d l IHl r IHr h]; [intros _; simpl; lia|].
  intros (Hl & Hr & Hh & Hb). cbn [get_height size].
  specialize (IHl Hl). specialize (IHr Hr).
  pose proof (avl_height_nonneg l Hl) as Hl0.
  pose proof (avl_height_nonneg r Hr) as Hr0.
  remember (Z.to_nat (get_height l)) as a eqn:Ea.
  remember (Z.to_nat (get_height r)) as b eqn:Eb.
  assert (Ha : get_height l = Z.of_nat a) by lia.
  assert (Hb' : get_height r = Z.of_nat b) by lia.
  clear Ea Eb.
  assert (Hcase : (a = b \/ a = S b \/ b = S a)%nat) by lia.
  assert (Hn : Z.to_nat h = S (Nat.max a b)) by lia.
  rewrite Hn.
  destruct Hcase as [-> | [-> | ->] ].
  - rewrite Nat.max_id. replace (S b + 2)%nat with (S (S (S b))) by lia.
    rewrite fib_step. replace (b + 2)%nat with (S (S b)) in * by lia.
    pose proof (fib_mono (S b)). lia.
  - replace (Nat.max (S b) b) with (S b) by lia.
    replace (S (S b) + 2)%nat with (S (S (S (S b)))) by lia.
    rewrite fib_step.
    replace (S b + 2)%nat with (S (S (S b))) in * by lia.
    replace (b + 2)%nat with (S (S b)) in * by lia. lia.
  - replace (Nat.max a (S a)) with (S a) by lia.
    replace (S (S a) + 2)%nat with (S (S (S (S a)))) by lia.
    rewrite fib_step.
    replace (S a + 2)%nat with (S (S (S a))) in * by lia.
    replace (a + 2)%nat with (S (S a)) in * by lia. lia.
Qed.

Lemma fib_growth (n : nat) : 4 * fib (S (S n)) <= fib (S (S (S (S (S n))))).
Proof.
  rewrite (fib_step (S (S (S n)))), (fib_step (S (S n))), (fib_step (S n)).
  pose proof (fib_mono n). pose proof (fib_pos n).
  rewrite fib_step. lia.
Qed.

Lemma fib_cube (n : nat) : 4 ^ Z.of_nat n <= fib (n + 2) ^ 3.
Proof.
  induction n as [n IH] using (well_founded_induction Wf_nat.lt_wf).
  destruct n as [|[|[|k]]]; try (vm_compute; discriminate).
  assert (Hk : 4 ^ Z.of_nat k <= fib (k + 2) ^ 3) by (apply IH; lia).
  replace (Z.of_nat (S (S (S k)))) with (Z.of_nat k + 3) by lia.
  rewrite Z.pow_add_r by lia.
  replace (S (S (S k)) + 2)%nat with (S (S (S (S (S k))))) by lia.
  replace (k + 2)%nat with (S (S k)) in Hk by lia.
  pose proof (fib_growth k) as Hgrow.
  pose proof (fib_pos (S (S k))) as Hpos.
  assert (Hcube : (4 * fib (S (S k))) ^ 3 <= fib (S (S (S (S (S k))))) ^ 3).
  { apply Z.pow_le_mono_l. lia. }
  rewrite Z.pow_mul_l in Hcube.
  change (4 ^ 3) with 64 in *. lia.
Qed.

(* ================================================================= *)
(** ** Height against the number of nodes *)


Lemma pow_le_of_log (x y : R) (a b : nat) :
  (0 < x)%R -> (0 < y)%R ->
  (INR a * ln x <= INR b * ln y)%R -> (x ^ a <= y ^ b)%R.
Proof.
  intros Hx Hy Hlog. rewrite <- !ln_pow in Hlog by assumption.
  apply Rnot_lt_le. intros Hlt.
  apply ln_increasing in Hlt; [lra|]. now apply pow_lt.
Qed.

Lemma IZR_pow_nat (z e : Z) :
  0 <= e -> (IZR z ^ Z.to_nat e)%R = IZR (z ^ e).
Proof. intros He. rewrite pow_IZR, Z2Nat.id by assumption. reflexivity. Qed.

(** The bound [h <= 1.44 * log2 (n + 2) - 0.328] multiplied by 125 reads
    [125 * h + 41 <= 180 * log2 (n + 2)], an inequality between integer
    powers. *)
Lemma height_bound_integers (h n : Z) :
  0 <= h -> 0 <= n -> height_bound h n ->
  2 ^ (125 * h + 41) <= (n + 2) ^ 180.
Proof.
  intros Hh Hn Hbound. unfold height_bound in Hbound.
  assert (Hln2 : (0 < ln 2)%R).
  { rewrite <- ln_1. apply ln_increasing; lra. }
  assert (Hpos : (0 < IZR (n + 2))%R) by (apply IZR_lt; lia).
  remember (ln (IZR (n + 2))) as L eqn:EL.
  remember (ln 2) as c eqn:Ec.
  assert (Hscaled : ((125 * IZR h + 41) * c <= 180 * L)%R).
  { assert (Hdiv : (L / c * c = L)%R) by (field; lra).
    apply (Rmult_le_compat_r c) in Hbound; [|lra].
    nra. }
  remember (125 * h + 41) as e eqn:Ee.
  remember 180 as f eqn:Ef.
  assert (He : 0 <= e) by lia.
  assert (Hf : 0 <= f) by lia.
  apply le_IZR.
  rewrite <- (IZR_pow_nat 2 e He), <- (IZR_pow_nat (n + 2) f Hf).
  apply pow_le_of_log; [lra | exact Hpos |].
  rewrite !INR_IZR_INZ, !Z2Nat.id by assumption.
  rewrite <- EL, <- Ec. subst e f.
  rewrite plus_IZR, mult_IZR. exact Hscaled.
Qed.

Lemma fib13_bound_fails : ~ height_bound 13 609.
Proof.
  assert (Hb : (2 ^ (125 * 13 + 41) <=? (609 + 2) ^ 180) = false)
    by (vm_compute; reflexivity).
  intros H. apply height_bound_integers in H; [|lia|lia].
  apply Z.leb_le in H. rewrite Hb in H. discriminate H.
Qed.

Lemma distinct_fresh (vs : list Z) :
  forall b, distinct vs = true -> (forall x, In x b -> ~ In x vs) ->
  fresh_inserts b (insert_all vs).
Proof.
  induction vs as [|v vs IH]; intros b Hd Hb; simpl; [exact I|].
  simpl in Hd. apply andb_prop in Hd. destruct Hd as [Hv Hd].
  apply negb_true_iff in Hv.
  assert (Hnv : ~ In v vs).
  { intros Hin. apply not_true_iff_false in Hv. apply Hv.
    apply existsb_exists. exists v. split; [assumption | apply Z.eqb_refl]. }
  split.
  - intros Hin. apply (Hb v Hin). now left.
  - apply IH; [assumption|].
    intros x [<-|Hx]; [assumption|].
    intros Hin. apply (Hb x Hx). now right.
Qed.

Lemma size_elements (t : tree) : size t = Z.of_nat (length (elements t)).
Proof.
  induction t as [|d l IHl r IHr h]; simpl; [reflexivity|].
  rewrite length_app. simpl. lia.
Qed.

Lemma exec_fresh (ops : list op) :
  forall self b,
    avl (root self) -> ordered (root self) ->
    Permutation (elements (root self)) b ->
    fresh_inserts b ops ->
    run self ops = Some (exec self ops) /\
    avl (root (exec self ops)) /\ ordered (root (exec self ops)).
Proof.
  induction ops as [|o ops IH]; intros self b Havl Hord HP Hfresh; simpl.
  - auto.
  - assert (Hwf : well_formed (root self)).
    { split; [assumption | now apply avl_heights_positive]. }
    destruct o as [v|v]; simpl in Hfresh.
    + destruct Hfresh as [Hnin Hfresh].
      assert (Hnin' : ~ In v (elements (root self))).
      { intros Hin. apply Hnin. now rewrite <- HP. }
      destruct (insert_recursive_avl (root self) v Havl Hnin')
        as (t' & Hins & Havl' & _).
      destruct (insert_well_formed self v Hwf) as [[Hord' _] Hel].
      assert (Hroot : root (fst (insert self v)) = t')
        by (unfold insert; now rewrite Hins).
      assert (Hsnd : raises self (Insert v) = false)
        by (unfold raises, insert; now rewrite Hins).
      rewrite Hsnd. cbn [apply_op].
      apply (IH _ (v :: b)).
      * rewrite Hroot. exact Havl'.
      * exact Hord'.
      * rewrite Hel, <- insert_sorted_perm. now constructor.
      * exact Hfresh.
    + destruct (delete_well_formed self v Hwf) as ([Hord' _] & Hel & Hret).
      assert (Havl' : avl (root (fst (delete self v)))).
      { unfold delete, is_empty. destruct (root self) as [|d l r h] eqn:Hroot.
        - simpl. now rewrite Hroot.
        - destruct (delete_recursive_avl (Node d l r h) v Havl)
            as (t' & -> & Ht' & _). exact Ht'. }
      assert (Hsnd : raises self (Delete v) = false)
        by (unfold raises; now rewrite Hret).
      rewrite Hsnd. cbn [apply_op].
      apply (IH _ (remove_one v b)); auto.
      rewrite Hel. now apply remove_one_respects_perm.
Qed.

(** C9, amended. When no value is inserted while the tree already holds it,
    no call raises, every cached height is the real height, and a tree of
    height [h] with [n] nodes has [fib (h + 2) <= n + 1]; in particular
    [4 ^ h <= (n + 1) ^ 3], that is [h <= 1.5 * log2 (n + 1)]. *)
Theorem fresh_height_bound (ops : list op) :
  fresh_inserts [] ops ->
  run empty ops = Some (exec empty ops) /\
  avl (root (exec empty ops)) /\
  get_height (root (exec empty ops)) = real_height (root (exec empty ops)) /\
  fib (Z.to_nat (get_height (root (exec empty ops))) + 2)
    <= size (root (exec empty ops)) + 1 /\
  4 ^ get_height (root (exec empty ops))
    <= (size (root (exec empty ops)) + 1) ^ 3.
Proof.
  intros Hfresh.
  destruct (exec_fresh ops empty [] I I (Permutation_refl _) Hfresh)
    as (Hrun & Havl & _).
  pose proof (avl_fib _ Havl) as Hfib.
  pose proof (avl_height_nonneg _ Havl) as Hnn.
  repeat split; auto.
  - now apply avl_real_height.
  - pose proof (fib_cube (Z.to_nat (get_height (root (exec empty ops))))) as Hc.
    rewrite Z2Nat.id in Hc by assumption.
    etransitivity; [exact Hc|].
    apply Z.pow_le_mono_l. split; [apply fib_pos | exact Hfib].
Qed.

Lemma fresh_height_bound_witness :
  let ops := [Insert 10; Insert 20; Insert 30; Delete 20; Insert 40] in
  fresh_inserts [] ops /\
  4 ^ get_height (root (exec empty ops)) <= (size (root (exec empty ops)) + 1) ^ 3.
Proof.
  assert (Hfresh : fresh_inserts []
            [Insert 10; Insert 20; Insert 30; Delete 20; Insert 40]).
  { simpl. repeat split; intros H; simpl in H; intuition lia. }
  split; [exact Hfresh|].
  apply (fresh_height_bound _ Hfresh).
Defined.

(** C9, as stated, fails. The 609 distinct values of the sparsest balanced
    tree of height 13, inserted level by level, are stored without any
    rotation: the tree has height 13, and 13 > 1.44 * log2 (611) - 0.328. *)
Lemma height_bound_fails :
  let ops := insert_all (level_order (fib_tree 13 1) 13) in
  let t := root (exec empty ops) in
  fresh_inserts [] ops /\
  run empty ops = Some (exec empty ops) /\
  get_height t = 13 /\ size t = 609 /\
  ~ height_bound (get_height t) (size t).
Proof.
  assert (Hd : distinct (level_order (fib_tree 13 1) 13) = true)
    by (vm_compute; reflexivity).
  assert (Hrun : run empty (insert_all (level_order (fib_tree 13 1) 13)) =
                 Some (exec empty (insert_all (level_order (fib_tree 13 1) 13))))
    by (vm_compute; reflexivity).
  assert (Hh : get_height (root (exec empty
                 (insert_all (level_order (fib_tree 13 1) 13)))) = 13)
    by (vm_compute; reflexivity).
  assert (Hn : size (root (exec empty
                 (insert_all (level_order (fib_tree 13 1) 13)))) = 609)
    by (vm_compute; reflexivity).
  cbv zeta. rewrite Hh, Hn.
  split; [apply distinct_fresh; [exact Hd | intros x []]|].
  split; [exact Hrun|].
  split; [reflexivity|]. split; [reflexivity|].
  exact fib13_bound_fails.
Qed.

(* ================================================================= *)
(** ** Deleting a value the tree holds *)

(** C5, amended. On a tree that satisfies the invariants of the data model,
    deleting a value [v] it holds returns normally, removes exactly one
    occurrence of [v] from the in-order traversal, and leaves a tree with
    correct heights, balanced at every node and ordered in the non-strict
    sense: left descendants less than or equal, right descendants greater
    than or equal. *)
Theorem delete_present (self : AVLTree) (v : Z) :
  bst (root self) -> avl (root self) -> In v (inorder_traversal self) ->
  snd (delete self v) = Ok true /\
  inorder_traversal (fst (delete self v)) =
    remove_one v (inorder_traversal self) /\
  Permutation (inorder_traversal self)
              (v :: inorder_traversal (fst (delete self v))) /\
  S (length (inorder_traversal (fst (delete self v)))) =
    length (inorder_traversal self) /\
  avl (root (fst (delete self v))) /\
  ordered (root (fst (delete self v))).
Proof.
  rewrite !inorder_traversal_elements. intros Hbst Havl Hin.
  assert (Hwf : well_formed (root self)).
  { split; [now apply bst_ordered | now apply avl_heights_positive]. }
  destruct (delete_well_formed self v Hwf) as ([Hord _] & Hel & Hret).
  assert (Hne : is_empty self = false).
  { unfold is_empty. destruct (root self); [destruct Hin | reflexivity]. }
  rewrite Hne in Hret. rewrite Hel.
  split; [exact Hret|]. split; [reflexivity|].
  split; [now apply remove_one_perm|].
  split; [now apply remove_one_length|].
  split; [|exact Hord].
  unfold delete. rewrite Hne.
  destruct (delete_recursive_avl (root self) v Havl) as (t' & -> & Ht' & _).
  exact Ht'.
Qed.

Lemma delete_present_witness :
  let self := exec empty (insert_all [10; 20; 30; 40; 50; 25]) in
  inorder_traversal (fst (delete self 30)) = [10; 20; 25; 40; 50] /\
  avl (root (fst (delete self 30))) /\
  ordered (root (fst (delete self 30))).
Proof.
  assert (Hbst : bst (root (exec empty (insert_all [10; 20; 30; 40; 50; 25])))).
  { cbn. repeat split; intros x Hx; intuition lia. }
  assert (Havl : avl (root (exec empty (insert_all [10; 20; 30; 40; 50; 25])))).
  { cbn. repeat split; lia. }
  assert (Hin : In 30 (inorder_traversal
                         (exec empty (insert_all [10; 20; 30; 40; 50; 25])))).
  { cbn. intuition lia. }
  destruct (delete_present _ 30 Hbst Havl Hin) as (_ & Hel & _ & _ & Ha & Ho).
  split; [|split; assumption].
  rewrite Hel. reflexivity.
Defined.

(** C5, as stated, fails. The tree built by inserting 2, 1, 2, 3 satisfies
    the ordering of the data model; deleting 1 rotates the root to the left
    and the equal value 2 becomes a left descendant of the root 2. *)
Lemma delete_breaks_strict_ordering :
  let self := exec empty (insert_all [2; 1; 2; 3]) in
  root self = Node 2 (Node 1 Nil Nil 1) (Node 2 Nil (Node 3 Nil Nil 1) 2) 3 /\
  bst (root self) /\ avl (root self) /\ In 1 (inorder_traversal self) /\
  root (fst (delete self 1)) = Node 2 (Node 2 Nil Nil 1) (Node 3 Nil Nil 1) 2 /\
  ~ bst (root (fst (delete self 1))).
Proof.
  cbv zeta.
  assert (Hroot : root (exec empty (insert_all [2; 1; 2; 3])) =
                  Node 2 (Node 1 Nil Nil 1) (Node 2 Nil (Node 3 Nil Nil 1) 2) 3)
    by reflexivity.
  assert (Hdel : root (fst (delete (exec empty (insert_all [2; 1; 2; 3])) 1)) =
                 Node 2 (Node 2 Nil Nil 1) (Node 3 Nil Nil 1) 2)
    by reflexivity.
  rewrite inorder_traversal_elements, Hdel, Hroot.
  split; [reflexivity|].
  split; [cbn; repeat split; intros x Hx; intuition lia|].
  split; [cbn; repeat split; lia|].
  split; [cbn; now left|].
  split; [reflexivity|].
  intros (_ & _ & Hlt & _). specialize (Hlt 2 (or_introl eq_refl)). lia.
Qed.

(* ================================================================= *)
(** ** Cached heights *)


Lemma height_correct_refresh (d : Z) (l r : tree) :
  height_correct l -> height_correct r -> height_correct (refresh d l r).
Proof. intros Hl Hr. simpl. auto. Qed.

Lemma height_correct_right_rotate (nd : Z) (l r : tree) (h : Z) (t : tree) :
  height_correct l -> height_correct r ->
  right_rotate (Node nd l r h) = Some t -> height_correct t.
Proof.
  destruct l as [|ld ll lr lh]; simpl; [discriminate|].
  intros (Hll & Hlr & _) Hr [= <-].
  apply height_correct_refresh; [assumption|].
  now apply height_correct_refresh.
Qed.

Lemma height_correct_left_rotate (nd : Z) (l r : tree) (h : Z) (t : tree) :
  height_correct l -> height_correct r ->
  left_rotate (Node nd l r h) = Some t -> height_correct t.
Proof.
  destruct r as [|rd rl rr rh]; simpl; [discriminate|].
  intros Hl (Hrl & Hrr & _) [= <-].
  apply height_correct_refresh; [|assumption].
  now apply height_correct_refresh.
Qed.

Lemma height_correct_child_left_rotate (l l2 : tree) :
  height_correct l -> left_rotate l = Some l2 -> height_correct l2.
Proof.
  destruct l as [|ld ll lr lh]; [discriminate|].
  intros (Hll & Hlr & _). now apply height_correct_left_rotate.
Qed.

Lemma height_correct_child_right_rotate (r r2 : tree) :
  height_correct r -> right_rotate r = Some r2 -> height_correct r2.
Proof.
  destruct r as [|rd rl rr rh]; [discriminate|].
  intros (Hrl & Hrr & _). now apply height_correct_right_rotate.
Qed.

Lemma finish_returned (st : tree) (o : option tree) (t : tree) :
  finish st o = Returned t -> o = Some t.
Proof. destruct o; simpl; congruence. Qed.

Lemma insert_rebalance_height_correct (nd : Z) (l r : tree) (data : Z) (t : tree) :
  height_correct l -> height_correct r ->
  insert_rebalance nd l r data = Returned t -> height_correct t.
Proof.
  intros Hl Hr.
  pose proof (height_correct_refresh nd l r Hl Hr) as Hk.
  unfold insert_rebalance, refresh in *. cbv zeta.
  destruct (cond _ l _) as [[|]|]; try discriminate.
  { intros H. apply finish_returned in H.
    exact (height_correct_right_rotate _ _ _ _ _ Hl Hr H). }
  destruct (cond _ r _) as [[|]|]; try discriminate.
  { intros H. apply finish_returned in H.
    exact (height_correct_left_rotate _ _ _ _ _ Hl Hr H). }
  destruct (cond _ l _) as [[|]|]; try discriminate.
  { destruct (left_rotate l) as [l2|] eqn:Hrot; [|discriminate].
    intros H. apply finish_returned in H.
    pose proof (height_correct_child_left_rotate _ _ Hl Hrot) as Hl2.
    exact (height_correct_right_rotate _ _ _ _ _ Hl2 Hr H). }
  destruct (cond _ r _) as [[|]|]; try discriminate.
  { destruct (right_rotate r) as [r2|] eqn:Hrot; [|discriminate].
    intros H. apply finish_returned in H.
    pose proof (height_correct_child_right_rotate _ _ Hr Hrot) as Hr2.
    exact (height_correct_left_rotate _ _ _ _ _ Hl Hr2 H). }
  now intros [= <-].
Qed.

Lemma insert_recursive_height_correct (t : tree) (data : Z) :
  forall t', height_correct t ->
  insert_recursive t data = Returned t' -> height_correct t'.
Proof.
  induction t as [|nd l IHl r IHr h]; intros t' Hc; simpl.
  - intros [= <-]. simpl. auto.
  - destruct Hc as (Hl & Hr & _).
    destruct (data <? nd).
    + destruct (insert_recursive l data) as [l'|l']; [|discriminate].
      apply insert_rebalance_height_correct; auto.
    + destruct (insert_recursive r data) as [r'|r']; [|discriminate].
      apply insert_rebalance_height_correct; auto.
Qed.

Lemma delete_rebalance_height_correct (nd : Z) (l r : tree) (t : tree) :
  height_correct l -> height_correct r ->
  delete_rebalance nd l r = Returned t -> height_correct t.
Proof.
  intros Hl Hr.
  pose proof (height_correct_refresh nd l r Hl Hr) as Hk.
  unfold delete_rebalance, refresh in *. cbv zeta.
  destruct (_ && _).
  { intros H. apply finish_returned in H.
    exact (height_correct_right_rotate _ _ _ _ _ Hl Hr H). }
  destruct (_ && _).
  { destruct (left_rotate l) as [l2|] eqn:Hrot; [|discriminate].
    intros H. apply finish_returned in H.
    pose proof (height_correct_child_left_rotate _ _ Hl Hrot) as Hl2.
    exact (height_correct_right_rotate _ _ _ _ _ Hl2 Hr H). }
  destruct (_ && _).
  { intros H. apply finish_returned in H.
    exact (height_correct_left_rotate _ _ _ _ _ Hl Hr H). }
  destruct (_ && _).
  { destruct (right_rotate r) as [r2|] eqn:Hrot; [|discriminate].
    intros H. apply finish_returned in H.
    pose proof (height_correct_child_right_rotate _ _ Hr Hrot) as Hr2.
    exact (height_correct_left_rotate _ _ _ _ _ Hl Hr2 H). }
  now intros [= <-].
Qed.

Lemma delete_recursive_height_correct (t : tree) :
  forall data t', height_correct t ->
  delete_recursive t data = Returned t' -> height_correct t'.
Proof.
  induction t as [|nd l IHl r IHr h]; intros data t' Hc; simpl.
  - now intros [= <-].
  - destruct Hc as (Hl & Hr & _).
    destruct (data <? nd).
    { destruct (delete_recursive l data) as [l'|l'] eqn:Hd; [|discriminate].
      apply delete_rebalance_height_correct; eauto. }
    destruct (data >? nd).
    { destruct (delete_recursive r data) as [r'|r'] eqn:Hd; [|discriminate].
      apply delete_rebalance_height_correct; eauto. }
    destruct l as [|ld ll lr lh]; [now intros [= <-]|].
    destruct r as [|rd rl rr rh]; [now intros [= <-]|].
    destruct (delete_recursive (Node rd rl rr rh) (leftmost rd rl))
      as [r'|r'] eqn:Hd; [|discriminate].
    apply delete_rebalance_height_correct; eauto.
Qed.

Lemma height_correct_real (t : tree) :
  height_correct t -> get_height t = real_height t.
Proof.
  induction t as [|d l IHl r IHr h]; simpl; [reflexivity|].
  intros (Hl & Hr & ->). now rewrite IHl, IHr.
Qed.

Lemma run_height_correct (ops : list op) :
  forall self t, height_correct (root self) ->
  run self ops = Some t -> height_correct (root t).
Proof.
  induction ops as [|o ops IH]; intros self t Hc; simpl.
  - now intros [= <-].
  - destruct (raises self o) eqn:Hraise; [discriminate|].
    apply IH. destruct o as [v|v]; simpl in *.
    + unfold insert in *.
      destruct (insert_recursive (root self) v) as [t'|t'] eqn:Hins;
        [|discriminate].
      simpl. eapply insert_recursive_height_correct; eauto.
    + unfold delete in *. destruct (is_empty self); [assumption|].
      destruct (delete_recursive (root self) v) as [t'|t'] eqn:Hdel;
        [|discriminate].
      simpl. eapply delete_recursive_height_correct; eauto.
Qed.

(** X1. Height bookkeeping. When a sequence of insertions and deletions on a
    fresh tree completes without an exception, every node's cached height is
    one more than the larger cached height of its children, so [get_height]
    of the root is the real height of the tree.  Duplicates are allowed:
    they may unbalance the tree but never falsify a cached height. *)
Theorem completed_calls_keep_heights (ops : list op) (t : AVLTree) :
  run empty ops = Some t ->
  height_correct (root t) /\ get_height (root t) = real_height (root t).
Proof.
  intros Hrun.
  assert (Hc : height_correct (root t))
    by (eapply run_height_correct; [|exact Hrun]; exact I).
  split; [exact Hc | now apply height_correct_real].
Qed.

Lemma completed_calls_keep_heights_witness :
  exists t, run empty (insert_all [1; 1; 1; 2; 0]) = Some t /\
            get_height (root t) = real_height (root t).
Proof.
  eexists. split; [reflexivity|].
  apply (completed_calls_keep_heights (insert_all [1; 1; 1; 2; 0])).
  reflexivity.
Defined.

(* ================================================================= *)
(** ** Rotations *)

(** X2. Rotations. [right_rotate] raises exactly on a node without left
    child and [left_rotate] exactly on a node without right child; a
    rotation that returns keeps the in-order sequence and the number of
    nodes, and keeps cached heights positive. *)
Theorem rotations_spec (y : tree) :
  (right_rotate y = None <-> forall d l r h, y = Node d l r h -> l = Nil) /\
  (left_rotate y = None <-> forall d l r h, y = Node d l r h -> r = Nil) /\
  (forall t, right_rotate y = Some t \/ left_rotate y = Some t ->
     elements t = elements y /\ size t = size y /\
     (heights_positive y -> heights_positive t)).
Proof.
  split; [|split].
  - destruct y as [|yd [|xd xl T2 xh] yr yh]; simpl; split; intros H;
      try reflexivity; try discriminate.
    + intros d l r h [= _ <- _ _]. reflexivity.
    + specialize (H _ _ _ _ eq_refl). discriminate.
  - destruct y as [|xd xl [|yd T2 yr yh] xh]; simpl; split; intros H;
      try reflexivity; try discriminate.
    + intros d l r h [= _ _ <- _]. reflexivity.
    + specialize (H _ _ _ _ eq_refl). discriminate.
  - intros t [H|H].
    + split; [now apply right_rotate_elements|]. split.
      * rewrite !size_elements. now rewrite (right_rotate_elements _ _ H).
      * intros Hp. eapply right_rotate_positive; eauto.
    + split; [now apply left_rotate_elements|]. split.
      * rewrite !size_elements. now rewrite (left_rotate_elements _ _ H).
      * intros Hp. eapply left_rotate_positive; eauto.
Qed.

Lemma rotations_spec_witness :
  let y := Node 30 (Node 20 (Node 10 Nil Nil 1) Nil 2) Nil 3 in
  let t := Node 20 (Node 10 Nil Nil 1) (Node 30 Nil Nil 1) 2 in
  right_rotate y = Some t /\ elements t = elements y /\ size t = size y.
Proof.
  cbv zeta. split; [reflexivity|].
  destruct (proj2 (proj2 (rotations_spec
              (Node 30 (Node 20 (Node 10 Nil Nil 1) Nil 2) Nil 3)))
              (Node 20 (Node 10 Nil Nil 1) (Node 30 Nil Nil 1) 2)
              (or_introl eq_refl)) as (He & Hs & _).
  split; assumption.
Defined.

(** X3. On a subtree whose cached heights are correct the two rotations
    undo each other: rotating right and then left, or left and then right,
    gives back the very same subtree, heights included. *)
Theorem rotations_inverse (y x : tree) :
  height_correct y ->
  (right_rotate y = Some x -> left_rotate x = Some y) /\
  (left_rotate y = Some x -> right_rotate x = Some y).
Proof.
  intros Hc. split.
  - destruct y as [|yd [|xd xl T2 xh] yr yh]; simpl; try discriminate.
    intros [= <-]. simpl in Hc. destruct Hc as ((_ & _ & ->) & _ & ->).
    reflexivity.
  - destruct y as [|xd xl [|yd T2 yr yh] xh]; simpl; try discriminate.
    intros [= <-]. simpl in Hc. destruct Hc as (_ & (_ & _ & ->) & ->).
    reflexivity.
Qed.

Lemma rotations_inverse_witness :
  let y := Node 30 (Node 20 (Node 10 Nil Nil 1) Nil 2) Nil 3 in
  let x := Node 20 (Node 10 Nil Nil 1) (Node 30 Nil Nil 1) 2 in
  height_correct y /\ right_rotate y = Some x /\ left_rotate x = Some y.
Proof.
  assert (Hc : height_correct (Node 30 (Node 20 (Node 10 Nil Nil 1) Nil 2) Nil 3)).
  { simpl. repeat split; reflexivity. }
  cbv zeta. split; [exact Hc|]. split; [reflexivity|].
  exact (proj1 (rotations_inverse _ _ Hc) eq_refl).
Defined.

(* ================================================================= *)
(** ** The values a reachable tree holds *)

Lemma reachable_well_formed (ops : list op) :
  well_formed (root (exec empty ops)).
Proof.
  assert (Hwf : well_formed (root empty)) by (simpl; split; exact I).
  exact (proj1 (exec_bag ops empty [] Hwf (Permutation_refl _))).
Qed.

(** X4. Content. After any sequence of calls on a fresh tree, raising or
    not, the in-order traversal is non-decreasing and holds exactly the
    multiset the sequence describes: one occurrence more per insertion, one
    less per deletion of a value that is there. *)
Theorem content_is_bag (ops : list op) :
  Permutation (inorder_traversal (exec empty ops)) (bag ops) /\
  StronglySorted Z.le (inorder_traversal (exec empty ops)).
Proof.
  assert (Hwf : well_formed (root empty)) by (simpl; split; exact I).
  rewrite inorder_traversal_elements.
  destruct (exec_bag ops empty [] Hwf (Permutation_refl _)) as [[Ho _] HP].
  split; [exact HP | now apply ordered_sorted].
Qed.

Lemma sorted_perm_eq (l l' : list Z) :
  StronglySorted Z.le l -> StronglySorted Z.le l' -> Permutation l l' -> l = l'.
Proof.
  revert l'. induction l as [|a l IH]; intros l' Hs Hs' HP.
  - apply Permutation_nil in HP. now subst.
  - destruct l' as [|a' l'].
    + symmetry in HP. apply Permutation_nil in HP. discriminate.
    + inversion Hs as [|? ? Hsl Hall]; subst.
      inversion Hs' as [|? ? Hsl' Hall']; subst.
      rewrite Forall_forall in Hall, Hall'.
      assert (a = a').
      { assert (Hin : In a (a' :: l'))
          by (eapply Permutation_in; [exact HP | now left]).
        assert (Hin' : In a' (a :: l))
          by (eapply Permutation_in; [symmetry; exact HP | now left]).
        destruct Hin as [->|Hin]; [reflexivity|].
        destruct Hin' as [->|Hin']; [reflexivity|].
        specialize (Hall _ Hin'). specialize (Hall' _ Hin). lia. }
      subst a'. f_equal. apply IH; auto.
      eapply Permutation_cons_inv, HP.
Qed.

Lemma bag_insert_all (vs : list Z) :
  forall b, Permutation (fold_left bag_step (insert_all vs) b) (vs ++ b).
Proof.
  induction vs as [|v vs IH]; intros b; simpl; [reflexivity|].
  rewrite IH. symmetry. apply Permutation_middle.
Qed.

(** X5. Two lists with the same values in different orders, inserted into
    fresh trees, give the same in-order traversal. *)
Theorem insertion_order_irrelevant (vs ws : list Z) :
  Permutation vs ws ->
  inorder_traversal (exec empty (insert_all vs)) =
  inorder_traversal (exec empty (insert_all ws)).
Proof.
  intros HP.
  destruct (content_is_bag (insert_all vs)) as [Hv Hsv].
  destruct (content_is_bag (insert_all ws)) as [Hw Hsw].
  apply sorted_perm_eq; auto.
  rewrite Hv, Hw. unfold bag. rewrite !bag_insert_all, !app_nil_r. exact HP.
Qed.

Lemma insertion_order_irrelevant_witness :
  inorder_traversal (exec empty (insert_all [3; 1; 2; 1])) =
  inorder_traversal (exec empty (insert_all [1; 1; 2; 3])).
Proof.
  apply insertion_order_irrelevant.
  change [3; 1; 2; 1] with ([3] ++ [1; 2; 1]).
  rewrite Permutation_app_comm. simpl.
  apply perm_skip. apply perm_swap.
Defined.

(* ================================================================= *)
(** ** Calls on reachable trees *)

(** X6. On any tree reached by calls from the fresh tree, [delete] never
    raises; it returns [True] exactly when the tree was not empty, and the
    traversal afterwards is the one before with one occurrence of the value
    taken away, if there was one. *)
Theorem delete_reachable (ops : list op) (v : Z) :
  snd (delete (exec empty ops) v) = Ok (negb (is_empty (exec empty ops))) /\
  inorder_traversal (fst (delete (exec empty ops) v)) =
    remove_one v (inorder_traversal (exec empty ops)).
Proof.
  rewrite !inorder_traversal_elements.
  destruct (delete_well_formed _ v (reachable_well_formed ops))
    as (_ & Hel & Hret).
  split; assumption.
Qed.

(** X7. Deleting a value the tree does not hold leaves the in-order
    traversal as it was, also on trees unbalanced by duplicates, where the
    call may rotate nodes on its way back. *)
Theorem delete_absent_unchanged (ops : list op) (v : Z) :
  ~ In v (inorder_traversal (exec empty ops)) ->
  inorder_traversal (fst (delete (exec empty ops) v)) =
  inorder_traversal (exec empty ops).
Proof.
  intros Hnin. rewrite (proj2 (delete_reachable ops v)).
  now apply remove_one_notin.
Qed.

Lemma delete_absent_unchanged_witness :
  inorder_traversal (fst (delete (exec empty (insert_all [1; 1; 1; 2])) 5)) =
  inorder_traversal (exec empty (insert_all [1; 1; 1; 2])).
Proof.
  apply (delete_absent_unchanged (insert_all [1; 1; 1; 2]) 5).
  cbn. intuition lia.
Defined.

(** X8. On any tree reached by calls from the fresh tree, [insert] puts one
    more occurrence of the value into the traversal, after the values equal
    to it, and the traversal stays non-decreasing; this holds for the tree
    an [AttributeError] leaves behind as well. *)
Theorem insert_reachable (ops : list op) (v : Z) :
  inorder_traversal (fst (insert (exec empty ops) v)) =
    insert_sorted v (inorder_traversal (exec empty ops)) /\
  StronglySorted Z.le (inorder_traversal (fst (insert (exec empty ops) v))) /\
  length (inorder_traversal (fst (insert (exec empty ops) v))) =
    S (length (inorder_traversal (exec empty ops))).
Proof.
  rewrite !inorder_traversal_elements.
  destruct (insert_well_formed _ v (reachable_well_formed ops)) as [[Ho _] Hel].
  split; [exact Hel|]. split; [now apply ordered_sorted|].
  rewrite Hel, <- (Permutation_length (insert_sorted_perm v _)). reflexivity.
Qed.

(* ================================================================= *)
(** ** Search after a call *)

Lemma search_in (ops : list op) (w : Z) :
  search (exec empty ops) w = true <-> In w (inorder_traversal (exec empty ops)).
Proof.
  rewrite inorder_traversal_elements. unfold search.
  apply search_recursive_spec. apply reachable_well_formed.
Qed.

(** X9. Insert then search: after [insert(v)], [search(w)] succeeds exactly
    when [w] is [v] or [search(w)] succeeded before. *)
Theorem search_after_insert (ops : list op) (v w : Z) :
  search (fst (insert (exec empty ops) v)) w =
  (w =? v) || search (exec empty ops) w.
Proof.
  apply eq_iff_eq_true.
  rewrite orb_true_iff, Z.eqb_eq, search_in.
  rewrite inorder_traversal_elements.
  destruct (insert_well_formed _ v (reachable_well_formed ops)) as [[Ho _] Hel].
  unfold search. rewrite (search_recursive_spec _ w Ho), Hel.
  apply insert_sorted_in.
Qed.

Lemma remove_one_in_other (x y : Z) (l : list Z) :
  y <> x -> In y l -> In y (remove_one x l).
Proof.
  intros Hne. induction l as [|a l IH]; simpl; [tauto|].
  destruct (Z.eqb_spec x a) as [->|Hxa].
  - intros [H|H]; [congruence | assumption].
  - intros [H|H]; [now left | right; auto].
Qed.

(** X10. Delete then search: [delete(v)] does not change the result of
    [search(w)] for any other value [w], and [search(v)] still succeeds
    afterwards exactly when the tree held [v] at least twice. *)
Theorem search_after_delete (ops : list op) (v w : Z) :
  (w <> v ->
   search (fst (delete (exec empty ops) v)) w = search (exec empty ops) w) /\
  (search (fst (delete (exec empty ops) v)) v = true <->
   (2 <= count_occ Z.eq_dec (inorder_traversal (exec empty ops)) v)%nat).
Proof.
  destruct (delete_well_formed _ v (reachable_well_formed ops))
    as ([Ho _] & Hel & _).
  rewrite inorder_traversal_elements. split.
  - intros Hne. apply eq_iff_eq_true.
    rewrite search_in, inorder_traversal_elements.
    unfold search. rewrite (search_recursive_spec _ w Ho), Hel.
    split; [apply remove_one_in | now apply remove_one_in_other].
  - unfold search. rewrite (search_recursive_spec _ v Ho), Hel.
    rewrite (count_occ_In Z.eq_dec), remove_one_count.
    destruct (Z.eq_dec v v) as [_|Hn]; [lia | congruence].
Qed.

Lemma search_after_delete_witness :
  search (fst (delete (exec empty (insert_all [4; 2; 6])) 2)) 6 =
  search (exec empty (insert_all [4; 2; 6])) 6.
Proof.
  apply (proj1 (search_after_delete (insert_all [4; 2; 6]) 2 6)). lia.
Defined.

(* ================================================================= *)
(** ** Insert followed by delete *)

Lemma insert_sorted_least (v : Z) (l : list Z) :
  (forall x, In x l -> v <= x) -> insert_sorted v l = v :: l.
Proof.
  induction l as [|a l IH]; intros Hle; simpl; [reflexivity|].
  destruct (Z.ltb_spec v a); [reflexivity|].
  assert (a = v) by (specialize (Hle a (or_introl eq_refl)); lia).
  subst a. rewrite IH; [reflexivity|]. intros x Hx. apply Hle. now right.
Qed.

Lemma remove_one_insert_sorted (v : Z) (l : list Z) :
  StronglySorted Z.le l -> remove_one v (insert_sorted v l) = l.
Proof.
  induction l as [|a l IH]; intros Hs; simpl.
  - now rewrite Z.eqb_refl.
  - inversion Hs as [|? ? Hs' Hall]; subst.
    rewrite Forall_forall in Hall.
    destruct (Z.ltb_spec v a).
    + simpl. now rewrite Z.eqb_refl.
    + simpl. destruct (Z.eqb_spec v a) as [->|Hne].
      * now apply insert_sorted_least.
      * now rewrite IH.
Qed.

(** X11. Inserting a value and deleting it straight away restores the
    in-order traversal. *)
Theorem insert_then_delete (ops : list op) (v : Z) :
  inorder_traversal (fst (delete (fst (insert (exec empty ops) v)) v)) =
  inorder_traversal (exec empty ops).
Proof.
  rewrite !inorder_traversal_elements.
  pose proof (reachable_well_formed ops) as Hwf.
  destruct (insert_well_formed _ v Hwf) as [Hwf' Hel].
  destruct (delete_well_formed _ v Hwf') as (_ & Hel' & _).
  rewrite Hel', Hel. apply remove_one_insert_sorted.
  apply ordered_sorted, Hwf.
Qed.

(* ================================================================= *)
(** ** Sequences without duplicates *)

Lemma remove_one_nodup (x : Z) (l : list Z) :
  NoDup l -> NoDup (remove_one x l).
Proof.
  induction l as [|a l IH]; simpl; intros Hnd; [constructor|].
  inversion Hnd as [|? ? Hnin Hnd']; subst.
  destruct (x =? a); [assumption|].
  constructor; [|auto]. intros Hin. apply Hnin. eapply remove_one_in, Hin.
Qed.

Lemma fresh_bag_nodup (ops : list op) :
  forall b, NoDup b -> fresh_inserts b ops -> NoDup (fold_left bag_step ops b).
Proof.
  induction ops as [|o ops IH]; intros b Hnd Hfresh; simpl; [assumption|].
  destruct o as [v|v]; simpl in *.
  - destruct Hfresh as [Hnin Hfresh]. apply IH; [|assumption].
    now constructor.
  - apply IH; [|assumption]. now apply remove_one_nodup.
Qed.

Lemma ordered_nodup_bst (t : tree) :
  ordered t -> NoDup (elements t) -> bst t.
Proof.
  induction t as [|d l IHl r IHr h]; simpl; [trivial|].
  intros (Ol & Or & Hle & Hge) Hnd.
  pose proof (NoDup_remove_2 _ _ _ Hnd) as Hnin.
  apply NoDup_remove_1 in Hnd.
  repeat split.
  - apply IHl; [assumption|]. eapply NoDup_app_remove_r, Hnd.
  - apply IHr; [assumption|]. eapply NoDup_app_remove_l, Hnd.
  - intros x Hx. specialize (Hle x Hx).
    assert (x <> d) by (intros ->; apply Hnin, in_or_app; now left).
    lia.
  - exact Hge.
Qed.

Lemma avl_balanced (t : tree) : avl t -> balanced t = true.
Proof.
  induction t as [|d l IHl r IHr h]; simpl; [reflexivity|].
  intros (Hl & Hr & _ & Hb). rewrite IHl, IHr by assumption. simpl.
  apply andb_true_intro. split; [apply Z.leb_le | apply Z.leb_le]; lia.
Qed.

(** X12. Sequences that never insert a value the tree already holds: no
    call raises, and the tree is balanced at every node, has correct cached
    heights, satisfies the strict ordering (left descendants smaller, right
    descendants greater or equal) and holds no value twice. *)
Theorem fresh_sequences_keep_invariants (ops : list op) :
  fresh_inserts [] ops ->
  run empty ops = Some (exec empty ops) /\
  balanced (root (exec empty ops)) = true /\
  height_correct (root (exec empty ops)) /\
  bst (root (exec empty ops)) /\
  NoDup (inorder_traversal (exec empty ops)).
Proof.
  intros Hfresh.
  destruct (exec_fresh ops empty [] I I (Permutation_refl _) Hfresh)
    as (Hrun & Havl & Hord).
  destruct (content_is_bag ops) as [HP _].
  assert (Hnd : NoDup (inorder_traversal (exec empty ops))).
  { eapply Permutation_NoDup; [symmetry; exact HP|].
    apply fresh_bag_nodup; [constructor | exact Hfresh]. }
  split; [exact Hrun|]. split; [now apply avl_balanced|].
  split; [exact (proj1 (completed_calls_keep_heights ops _ Hrun))|].
  split; [|exact Hnd].
  apply ordered_nodup_bst; [exact Hord|].
  now rewrite <- inorder_traversal_elements.
Qed.

Lemma fresh_sequences_keep_invariants_witness :
  let ops := [Insert 10; Insert 20; Insert 30; Delete 20; Insert 20] in
  fresh_inserts [] ops /\ balanced (root (exec empty ops)) = true /\
  bst (root (exec empty ops)).
Proof.
  assert (Hfresh : fresh_inserts []
            [Insert 10; Insert 20; Insert 30; Delete 20; Insert 20]).
  { simpl. repeat split; intros H; simpl in H; intuition lia. }
  destruct (fresh_sequences_keep_invariants _ Hfresh) as (_ & Hb & _ & Hbst & _).
  cbv zeta. split; [exact Hfresh|]. split; assumption.
Defined.

(* ================================================================= *)
(** ** Height change of a single call *)

(** X13. On a balanced tree with correct heights, inserting a value the
    tree does not hold returns normally, keeps the tree balanced and leaves
    the height as it was or one greater; deleting any value keeps the tree
    balanced and leaves the height as it was or one smaller. *)
Theorem height_changes_by_one (self : AVLTree) (v : Z) :
  avl (root self) ->
  (~ In v (inorder_traversal self) ->
   snd (insert self v) = Ok tt /\
   avl (root (fst (insert self v))) /\
   (get_height (root (fst (insert self v))) = get_height (root self) \/
    get_height (root (fst (insert self v))) = get_height (root self) + 1)) /\
  (avl (root (fst (delete self v))) /\
   (get_height (root (fst (delete self v))) = get_height (root self) \/
    get_height (root (fst (delete self v))) = get_height (root self) - 1)).
Proof.
  intros Havl. split.
  - rewrite inorder_traversal_elements. intros Hnin.
    destruct (insert_recursive_avl (root self) v Havl Hnin)
      as (t' & Hins & Havl' & Hg).
    unfold insert. rewrite Hins. simpl.
    split; [reflexivity|]. split; [exact Havl'|].
    destruct Hg as [Hg|[Hg _]]; auto.
  - unfold delete, is_empty.
    destruct (root self) as [|d l r h] eqn:Hroot.
    + simpl. rewrite Hroot. simpl. auto.
    + destruct (delete_recursive_avl (Node d l r h) v Havl)
        as (t' & -> & Havl' & Hh).
      simpl. auto.
Qed.

Lemma height_changes_by_one_witness :
  let self := exec empty (insert_all [10; 20; 30; 40; 50; 25]) in
  avl (root self) /\ ~ In 35 (inorder_traversal self) /\
  snd (insert self 35) = Ok tt /\
  avl (root (fst (insert self 35))).
Proof.
  assert (Havl : avl (root (exec empty (insert_all [10; 20; 30; 40; 50; 25])))).
  { cbn. repeat split; lia. }
  assert (Hnin : ~ In 35 (inorder_traversal
                    (exec empty (insert_all [10; 20; 30; 40; 50; 25])))).
  { cbn. intuition lia. }
  destruct (proj1 (height_changes_by_one _ 35 Havl) Hnin) as (Hok & Ha & _).
  cbv zeta. split; [exact Havl|]. split; [exact Hnin|]. split; assumption.
Defined.
